(** * Pyflow_DBF: the flow-equation integrator of [tutorial/build_unitary.ipynb]

    The notebook's function [flow] evolves a Hamiltonian matrix under the
    canonical (Wegner) generator with a forward-Euler scheme:

<<
    def flow(H,dl=10**(-3),steps = 100000):
        H2 = copy.deepcopy(H)
        n,_ = H2.shape
        U = np.identity(n)
        for q in range(steps):
            H0 = np.diag(np.diag(H2))
            V = H2-H0
            Vmax = np.max(np.abs(V.reshape(n**2)))
            eta = H0@V - V@H0
            U = (np.identity(n) + dl*eta)@U
            dH = eta@H2-H2@eta
            H2 += dl*dH
        return H2,Vmax,U
>>

    The embedding below keeps the program's shape: NumPy arrays are lists of
    rows, the operations that can raise return a [result], the caller's array
    and the deep copy live in an object store so that the in-place [+=] is an
    update of the store, and the local [Vmax] is unbound until the loop body
    has run once.  Scalars are the elements of an arbitrary totally ordered
    commutative ring (exact arithmetic, not the rounded arithmetic of
    [float64]: no rounding, no overflow, no infinity and no NaN); the
    integers and the rationals are instances, and the concrete runs use
    integer matrices, on which [float64] is exact as long as the entries stay
    below [2^53].  What is proved over the ring is proved of the program in
    exact arithmetic.  The numerical scenario is run in the module
    [Binary64], the same program over IEEE 754 binary64 floats. *)

From Stdlib Require Import List Arith PeanoNat ZArith QArith Qcanon Lia Ring Bool.
From Stdlib Require Floats Reals Qreals Lra.
Import ListNotations.

Close Scope Qc_scope.
Close Scope Q_scope.

Set Implicit Arguments.

(* ================================================================= *)
(** * Scalars *)

(** The element type of the arrays: a commutative ring with a decidable total
    order, which is what [+], [-], [*], [np.abs] and [np.max] need. *)
Record scalar : Type := Scalar {
  car :> Type;
  zero : car;
  one : car;
  add : car -> car -> car;
  mul : car -> car -> car;
  sub : car -> car -> car;
  opp : car -> car;
  leb : car -> car -> bool;
  scalar_ring : ring_theory zero one add mul sub opp eq;
  leb_total : forall x y, leb x y = true \/ leb y x = true;
  leb_trans : forall x y z, leb x y = true -> leb y z = true -> leb x z = true;
  leb_antisym : forall x y, leb x y = true -> leb y x = true -> x = y;
  leb_add : forall x y z, leb x y = true -> leb (add x z) (add y z) = true
}.

Arguments zero {s}.
Arguments one {s}.
Arguments add {s} _ _.
Arguments mul {s} _ _.
Arguments sub {s} _ _.
Arguments opp {s} _.
Arguments leb {s} _ _.

Declare Scope scalar_scope.
Delimit Scope scalar_scope with sc.
Notation "0" := zero : scalar_scope.
Notation "1" := one : scalar_scope.
Infix "+" := add : scalar_scope.
Infix "*" := mul : scalar_scope.
Infix "-" := sub : scalar_scope.
Notation "- x" := (opp x) : scalar_scope.
Infix "<=?" := leb : scalar_scope.

(** The integers as scalars. *)
Definition Zscalar : scalar.
Proof.
  refine (@Scalar Z 0%Z 1%Z Z.add Z.mul Z.sub Z.opp Z.leb
            InitialRing.Zth _ _ _ _);
    intros; rewrite ?Z.leb_le in *; lia.
Defined.

(** The rationals as scalars: the step [dl = 10**(-3)] and the decimal
    on-site energies of the notebook are scalars of this instance. *)
Definition Qcleb (x y : Qc) : bool := Qle_bool x y.

Definition Qcscalar : scalar.
Proof.
  refine (@Scalar Qc (Q2Qc 0) (Q2Qc 1) Qcplus Qcmult Qcminus Qcopp Qcleb
            Qcrt _ _ _ _);
    unfold Qcleb; intros x y; [| intros z | | intros z];
    rewrite !Qle_bool_iff.
  - destruct (Qclt_le_dec x y); [left; apply Qclt_le_weak | right]; assumption.
  - apply Qcle_trans.
  - apply Qcle_antisym.
  - intros Hxy. apply Qcplus_le_compat; [assumption | apply Qcle_refl].
Defined.

(* ================================================================= *)
(** * Exceptions and results *)

(** The exceptions [flow] can raise.  [DanglingRef] is not a Python exception:
    it marks a reference that is not in the object store, which a Python
    reference never is. *)
Inductive exn : Type :=
| UnboundLocalError
| ValueError
| DanglingRef.

Inductive result (A : Type) : Type :=
| Ok (a : A)
| Raise (e : exn).

Arguments Ok {A} a.
Arguments Raise {A} e.

Section Arrays.

Context {R : scalar}.
Local Open Scope scalar_scope.

(* ================================================================= *)
(** * Arrays and the NumPy operations used by [flow] *)

(** A rank-2 array, as its list of rows. *)
Definition matrix : Type := list (list R).

(** [A.shape] *)
Definition shape (A : matrix) : nat * nat := (length A, length (hd [] A)).

(** [A[i,j]] *)
Definition entry (A : matrix) (i j : nat) : R := nth j (nth i A []) 0.

(** The [n] by [m] array whose entry [(i,j)] is [f i j]. *)
Definition tabulate (n m : nat) (f : nat -> nat -> R) : matrix :=
  map (fun i => map (f i) (seq 0 m)) (seq 0 n).

(** [f 0 + f 1 + ... + f (n-1)] *)
Fixpoint sum_upto (n : nat) (f : nat -> R) : R :=
  match n with
  | O => 0
  | S k => sum_upto k f + f k
  end.

Definition shape_eqb (s t : nat * nat) : bool :=
  (fst s =? fst t)%nat && (snd s =? snd t)%nat.

(** [np.identity(n)] *)
Definition identity (n : nat) : matrix :=
  tabulate n n (fun i j => if (i =? j)%nat then 1 else 0).

(** [np.diag(A)] of a rank-2 array: the vector of its diagonal entries. *)
Definition np_diag_vec (A : matrix) : list R :=
  map (fun i => entry A i i) (seq 0 (Nat.min (fst (shape A)) (snd (shape A)))).

(** [np.diag(v)] of a rank-1 array: the square array with [v] on its diagonal. *)
Definition np_diag_mat (v : list R) : matrix :=
  tabulate (length v) (length v)
    (fun i j => if (i =? j)%nat then nth i v 0 else 0).

(** An elementwise binary operation.  Operands of different shapes raise
    [ValueError].  (NumPy would broadcast a 1 by 1 operand; in [flow] that
    only happens for an [H2] that is not square, for which the [reshape] of
    the next line raises [ValueError] as well.) *)
Definition elementwise (op : R -> R -> R) (A B : matrix) : result matrix :=
  if shape_eqb (shape A) (shape B)
  then Ok (tabulate (fst (shape A)) (snd (shape A))
             (fun i j => op (entry A i j) (entry B i j)))
  else Raise ValueError.

(** [A + B] and [A - B] *)
Definition madd : matrix -> matrix -> result matrix := elementwise add.
Definition msub : matrix -> matrix -> result matrix := elementwise sub.

(** [c * A] for a scalar [c] *)
Definition scale (c : R) (A : matrix) : matrix :=
  tabulate (fst (shape A)) (snd (shape A)) (fun i j => c * entry A i j).

(** [A @ B]: the matrix product; the inner dimensions must agree. *)
Definition matmul (A B : matrix) : result matrix :=
  if (snd (shape A) =? fst (shape B))%nat
  then Ok (tabulate (fst (shape A)) (snd (shape B))
             (fun i j => sum_upto (snd (shape A))
                           (fun k => entry A i k * entry B k j)))
  else Raise ValueError.

(** [A.reshape(len)]: the entries in row-major order; the sizes must agree. *)
Definition reshape (A : matrix) (len : nat) : result (list R) :=
  if (len =? fst (shape A) * snd (shape A))%nat
  then Ok (concat A)
  else Raise ValueError.

(** [abs] and [max] of two scalars. *)
Definition sabs (x : R) : R := if 0 <=? x then x else - x.
Definition smax (x y : R) : R := if x <=? y then y else x.

(** [np.abs(v)] *)
Definition np_abs (v : list R) : list R := map sabs v.

(** [np.max(v)]: raises [ValueError] on an empty array. *)
Definition np_max (v : list R) : result R :=
  match v with
  | [] => Raise ValueError
  | x :: v' => Ok (fold_left smax v' x)
  end.

(* ================================================================= *)
(** * The object store *)

(** Arrays are objects: a variable holds a reference, and [H2 += ...] updates
    the object in place.  The store is the list of the arrays allocated so
    far; a reference is an index into it. *)
Definition loc : Type := nat.
Definition heap : Type := list matrix.

Fixpoint store (l : loc) (A : matrix) (h : heap) : heap :=
  match h, l with
  | [], _ => []
  | _ :: h', O => A :: h'
  | B :: h', S l' => B :: store l' A h'
  end.

(** Computations that read and update the store and may raise.  The store
    survives an exception, as it does in Python. *)
Definition M (A : Type) : Type := heap -> heap * result A.

Definition ret {A} (a : A) : M A := fun h => (h, Ok a).

Definition raise {A} (e : exn) : M A := fun h => (h, Raise e).

Definition bind {A B} (c : M A) (k : A -> M B) : M B :=
  fun h =>
    match c h with
    | (h', Ok a) => k a h'
    | (h', Raise e) => (h', Raise e)
    end.

Definition lift {A} (r : result A) : M A := fun h => (h, r).

(** Reading the array a reference points to. *)
Definition load (l : loc) : M matrix :=
  fun h =>
    match nth_error h l with
    | Some A => (h, Ok A)
    | None => (h, Raise DanglingRef)
    end.

(** [copy.deepcopy(H)]: a new object with the same contents. *)
Definition deepcopy (l : loc) : M loc :=
  fun h =>
    match nth_error h l with
    | Some A => (h ++ [A], Ok (length h))
    | None => (h, Raise DanglingRef)
    end.

(** [H2 += D]: the object [H2] refers to is overwritten with the sum. *)
Definition iadd (l : loc) (D : matrix) : M unit :=
  fun h =>
    match nth_error h l with
    | Some A =>
        match madd A D with
        | Ok B => (store l B h, Ok tt)
        | Raise e => (h, Raise e)
        end
    | None => (h, Raise DanglingRef)
    end.

End Arrays.

Arguments matrix : clear implicits.
Arguments heap : clear implicits.
Arguments M : clear implicits.

Declare Scope flow_scope.
Delimit Scope flow_scope with flow.
Notation "x <- c ;; k" := (bind c (fun x => k))
  (at level 61, c at next level, right associativity) : flow_scope.
Notation "c ;;; k" := (bind c (fun _ => k))
  (at level 61, right associativity) : flow_scope.

Definition rbind {A B} (r : result A) (k : A -> result B) : result B :=
  match r with
  | Ok a => k a
  | Raise e => Raise e
  end.

Notation "x <~ r ;; k" := (rbind r (fun x => k))
  (at level 61, r at next level, right associativity) : flow_scope.

Section Flow.

Context {R : scalar}.
Local Open Scope scalar_scope.
Local Open Scope flow_scope.

(* ================================================================= *)
(** * The function [flow] *)

(** The local variables one pass through the loop body assigns. *)
Record locals : Type := Locals {
  l_H0 : matrix R;
  l_V : matrix R;
  l_Vmax : R;
  l_eta : matrix R;
  l_U : matrix R;
  l_dH : matrix R
}.

(** The body of the loop up to [dH], as a function of the array [H2] refers to
    and of [U].  None of these lines touches the store. *)
Definition loop_body (n : nat) (dl : R) (H2 U : matrix R) : result locals :=
  let H0 := np_diag_mat (np_diag_vec H2) in
  V <~ msub H2 H0 ;;
  flat <~ reshape V (n ^ 2) ;;
  Vmax <~ np_max (np_abs flat) ;;
  H0V <~ matmul H0 V ;;
  VH0 <~ matmul V H0 ;;
  eta <~ msub H0V VH0 ;;
  T <~ madd (identity n) (scale dl eta) ;;
  U' <~ matmul T U ;;
  etaH <~ matmul eta H2 ;;
  Heta <~ matmul H2 eta ;;
  dH <~ msub etaH Heta ;;
  Ok (Locals H0 V Vmax eta U' dH).

(** One iteration.  The loop carries [Vmax] (unbound before the first
    iteration) and [U]; [H2] is a reference and its object is updated in
    place by the last line. *)
Definition flow_iteration (n : nat) (dl : R) (H2 : loc)
    (st : option R * matrix R) : M R (option R * matrix R) :=
  A <- load H2 ;;
  fr <- lift (loop_body n dl A (snd st)) ;;
  iadd H2 (scale dl (l_dH fr)) ;;;
  ret (Some (l_Vmax fr), l_U fr).

(** [for q in range(steps): body] *)
Fixpoint for_range {S : Type} (steps : nat) (body : S -> M R S) (st : S)
  : M R S :=
  match steps with
  | O => ret st
  | Datatypes.S k => st' <- body st ;; for_range k body st'
  end.

(** [flow(H, dl, steps)], with [H] a reference into the store.  It returns
    the reference [H2], the value of [Vmax] and the array [U]; reading an
    unbound [Vmax] raises [UnboundLocalError].  [steps] is a natural number:
    [range(steps)] is empty for every [steps <= 0]. *)
Definition flow (H : loc) (dl : R) (steps : nat) : M R (loc * R * matrix R) :=
  H2 <- deepcopy H ;;
  A <- load H2 ;;
  let n := fst (shape A) in
  st <- for_range steps (flow_iteration n dl H2) (None, identity n) ;;
  match fst st with
  | None => raise UnboundLocalError
  | Some Vmax => ret (H2, Vmax, snd st)
  end.

(** The outcome of a call as the caller sees it: the array behind the
    returned reference, [Vmax] and [U], or the exception. *)
Definition outcome (r : heap R * result (loc * R * matrix R))
  : result (matrix R * R * matrix R) :=
  match r with
  | (h, Ok (l, v, U)) =>
      match nth_error h l with
      | Some B => Ok (B, v, U)
      | None => Raise DanglingRef
      end
  | (_, Raise e) => Raise e
  end.

(** [flow] called on a store that holds only the array [A]. *)
Definition call_flow (A : matrix R) (dl : R) (steps : nat)
  : result (matrix R * R * matrix R) :=
  outcome (flow 0%nat dl steps [A]).

(* ================================================================= *)
(** * The quantities the specification speaks of *)

(** [A] is an array of shape [(n, m)]. *)
Definition is_array (n m : nat) (A : matrix R) : bool :=
  (length A =? n)%nat && forallb (fun r => (length r =? m)%nat) A.

(** Equality of scalars, decided through the order. *)
Definition seqb (x y : R) : bool := (x <=? y) && (y <=? x).

(** The index pairs [(i,j)] of an [n] by [n] array with [i <> j]. *)
Definition offdiag_indices (n : nat) : list (nat * nat) :=
  filter (fun p => negb (fst p =? snd p)%nat) (list_prod (seq 0 n) (seq 0 n)).

(** All off-diagonal entries vanish. *)
Definition is_diagonal (n : nat) (A : matrix R) : bool :=
  forallb (fun p => seqb (entry A (fst p) (snd p)) 0) (offdiag_indices n).

(** The largest absolute value of an off-diagonal entry ([0] when there is
    no off-diagonal entry). *)
Definition spec_offdiag_max (n : nat) (A : matrix R) : R :=
  fold_left smax
    (map (fun p => sabs (entry A (fst p) (snd p))) (offdiag_indices n)) 0.

Definition transpose (A : matrix R) : matrix R :=
  tabulate (snd (shape A)) (fst (shape A)) (fun i j => entry A j i).

Definition mopp (A : matrix R) : matrix R :=
  tabulate (fst (shape A)) (snd (shape A)) (fun i j => - entry A i j).

Definition symmetric (A : matrix R) : Prop := transpose A = A.

(** The sum of the diagonal entries. *)
Definition trace (n : nat) (A : matrix R) : R :=
  sum_upto n (fun i => entry A i i).

(** Matrix algebra on [n] by [n] arrays, entry by entry. *)
Definition mplus (n : nat) (A B : matrix R) : matrix R :=
  tabulate n n (fun i j => entry A i j + entry B i j).

Definition mminus (n : nat) (A B : matrix R) : matrix R :=
  tabulate n n (fun i j => entry A i j - entry B i j).

Definition mtimes (n : nat) (A B : matrix R) : matrix R :=
  tabulate n n (fun i j => sum_upto n (fun k => entry A i k * entry B k j)).

Definition mscale (n : nat) (c : R) (A : matrix R) : matrix R :=
  tabulate n n (fun i j => c * entry A i j).

(** The forward-Euler step in the words of the specification: with [H0] the
    diagonal part of [H] and [V = H - H0], the generator is
    [eta = H0.V - V.H0], and the step maps [H] to [H + dl.(eta.H - H.eta)]
    and [U] to [(I + dl.eta).U]. *)
Definition spec_diag_part (n : nat) (H : matrix R) : matrix R :=
  tabulate n n (fun i j => if (i =? j)%nat then entry H i i else 0).

Definition spec_generator (n : nat) (H : matrix R) : matrix R :=
  let H0 := spec_diag_part n H in
  let V := mminus n H H0 in
  mminus n (mtimes n H0 V) (mtimes n V H0).

Definition spec_euler_step (n : nat) (dl : R) (s : matrix R * matrix R)
  : matrix R * matrix R :=
  let eta := spec_generator n (fst s) in
  (mplus n (fst s)
     (mscale n dl (mminus n (mtimes n eta (fst s)) (mtimes n (fst s) eta))),
   mtimes n (mplus n (identity n) (mscale n dl eta)) (snd s)).

(** The pair [(H, U)] after [k] Euler steps from [(H, I)]. *)
Definition spec_state (n : nat) (dl : R) (H : matrix R) (k : nat)
  : matrix R * matrix R :=
  Nat.iter k (spec_euler_step n dl) (H, identity n).

(** [np.zeros((n,n))] *)
Definition mzero (n : nat) : matrix R := tabulate n n (fun _ _ => 0).

(** The values [Vmax] takes in the iterations [0], ..., [steps - 1] of a run:
    entry [q] is the off-diagonal maximum of the Hamiltonian after [q] steps. *)
Definition norms (n : nat) (dl : R) (H : matrix R) (steps : nat) : list R :=
  map (fun q => spec_offdiag_max n (fst (spec_state n dl H q))) (seq 0 steps).

(** The strict order. *)
Definition sltb (x y : R) : bool := negb (y <=? x).

(** The off-diagonal norm increases over two consecutive steps somewhere. *)
Fixpoint diverging (vs : list R) : bool :=
  match vs with
  | x :: ((y :: z :: _) as vs') => (sltb x y && sltb y z) || diverging vs'
  | _ => false
  end.

(** A call reports a failure when it raises; the value [flow] returns has no
    other place for a flag. *)
Definition reports_failure {A : Type} (r : result A) : bool :=
  match r with
  | Ok _ => false
  | Raise _ => true
  end.

End Flow.

(* ================================================================= *)
(** * The other cells of the notebook *)

(** The notebook builds the Hamiltonian of a disordered chain, calls [flow]
    on it, transforms the Hamiltonian back with the returned [U], and sets up
    the rank-4 identity:

<<
    n = 4
    W = 5
    J = 1.
    H = np.zeros((n,n))
    for i in range(n):
        H[i,i] = np.random.uniform(-W,W)
        for j in range(n):
            if np.abs(i-j)==1:
                H[i,j] = J

    Hdiag2 = U@H@(U.T)

    U2 = np.identity(n)
    U4 = np.zeros((n,n,n,n))
    for i in range(n):
        for j in range(n):
            U4[i,i,j,j] = 1.0
>>
*)

(** [l[i] = x]; [None] stands for Python's [IndexError]. *)
Fixpoint set_nth {A : Type} (l : list A) (i : nat) (x : A) : option (list A) :=
  match l, i with
  | [], _ => None
  | _ :: l', O => Some (x :: l')
  | y :: l', S i' => option_map (cons y) (set_nth l' i' x)
  end.

(** [M[i,j]] of a nested list, when both indices are in range. *)
Definition get2 {A : Type} (M : list (list A)) (i j : nat) : option A :=
  match nth_error M i with
  | Some r => nth_error r j
  | None => None
  end.

(** [M[i,j] = x], in place; [None] when an index is out of range. *)
Definition setitem2 {A : Type} (M : list (list A)) (i j : nat) (x : A)
  : option (list (list A)) :=
  match nth_error M i with
  | Some r =>
      match set_nth r j x with
      | Some r' => set_nth M i r'
      | None => None
      end
  | None => None
  end.

(** [for x in xs: body], on a state that the body may fail to update. *)
Fixpoint for_each {S : Type} (xs : list nat) (body : nat -> S -> option S)
    (s : S) : option S :=
  match xs with
  | [] => Some s
  | x :: xs' =>
      match body x s with
      | Some s' => for_each xs' body s'
      | None => None
      end
  end.

(** [range(n)] *)
Definition range (n : nat) : list nat := seq 0 n.

(** [np.abs(i-j)==1] on two indices. *)
Definition adjacent (i j : nat) : bool :=
  (Z.abs (Z.of_nat i - Z.of_nat j) =? 1)%Z.

Section Notebook.

Context {R : scalar}.
Local Open Scope scalar_scope.
Local Open Scope flow_scope.

(** The random generator: the sequence of the samples it is going to
    produce and the number of samples drawn so far. *)
Record rng : Type := Rng {
  rng_stream : nat -> R;
  rng_pos : nat
}.

(** [np.random.uniform(low, high)]: the next sample, and the generator
    advanced by one. *)
Definition uniform (low high : R) (g : rng) : R * rng :=
  (rng_stream g (rng_pos g), Rng (rng_stream g) (S (rng_pos g))).

(** The inner loop of the construction, for row [i]. *)
Definition build_row (J : R) (n i : nat) (H : matrix R) : option (matrix R) :=
  for_each (range n)
    (fun j H => if adjacent i j then setitem2 H i j J else Some H) H.

(** The construction of the Hamiltonian [H], from [np.zeros((n,n))]. *)
Definition build_H (n : nat) (W J : R) (g : rng) : option (matrix R * rng) :=
  for_each (range n)
    (fun i st =>
       let (x, g') := uniform (- W) W (snd st) in
       match setitem2 (fst st) i i x with
       | Some H1 =>
           match build_row J n i H1 with
           | Some H2 => Some (H2, g')
           | None => None
           end
       | None => None
       end)
    (mzero n, g).

(** [U@H@(U.T)].  The transpose of a list of rows keeps the shape of an
    [n] by [m] array with [n, m >= 1] and of the empty array; an array of
    shape [(n, 0)] with [n >= 1] has no transpose in this representation. *)
Definition reconstruct (U H : matrix R) : result (matrix R) :=
  UH <~ matmul U H ;; matmul UH (transpose U).

(** A rank-4 array [T], as the nested list of the matrices [T[i,j]]. *)
Definition tensor4 : Type := list (list (matrix R)).

(** [np.zeros((n,n,n,n))] *)
Definition zeros4 (n : nat) : tensor4 := repeat (repeat (mzero n) n) n.

(** [T[i,j,k,l]] *)
Definition entry4 (T : tensor4) (i j k l : nat) : R :=
  match get2 T i j with
  | Some m => entry m k l
  | None => 0
  end.

(** [T[i,j,k,l] = x] *)
Definition setitem4 (T : tensor4) (i j k l : nat) (x : R) : option tensor4 :=
  match get2 T i j with
  | Some m =>
      match setitem2 m k l x with
      | Some m' => setitem2 T i j m'
      | None => None
      end
  | None => None
  end.

(** [T] is an array of shape [(n,n,n,n)]. *)
Definition is_tensor4 (n : nat) (T : tensor4) : Prop :=
  forall i j, (i < n)%nat -> (j < n)%nat ->
    exists m, get2 T i j = Some m /\ is_array n n m = true.

(** The construction of [U4]. *)
Definition build_U4 (n : nat) : option tensor4 :=
  for_each (range n)
    (fun i T => for_each (range n) (fun j T => setitem4 T i i j j 1) T)
    (zeros4 n).

End Notebook.

(* ================================================================= *)
(** * The binary64 run *)

(** The same program on [float64] arrays, with the rounded arithmetic of
    IEEE 754 binary64 (round to nearest, ties to even) in place of the ring
    operations.  The matrix product sums its products from [k = 0] upwards,
    one rounded addition after the other.  The store plays no role here:
    [H2] is the array the deep copy holds, and [H2 += dl*dH] gives its next
    value. *)
Module Binary64.

Import PrimFloat.
Local Open Scope float_scope.

(** Rank-1 and rank-2 arrays of [float64]. *)
Definition vector : Type := list float.
Definition matrix : Type := list vector.

Definition shape (A : matrix) : nat * nat := (length A, length (hd [] A)).

Definition entry (A : matrix) (i j : nat) : float := nth j (nth i A []) 0.

Definition tabulate (n m : nat) (f : nat -> nat -> float) : matrix :=
  @map nat vector (fun i => map (f i) (seq 0 m)) (seq 0 n).

Fixpoint sum_upto (n : nat) (f : nat -> float) : float :=
  match n with
  | O => 0
  | S k => sum_upto k f + f k
  end.

(** [np.identity(n)] *)
Definition identity (n : nat) : matrix :=
  tabulate n n (fun i j => if (i =? j)%nat then 1 else 0).

(** [np.diag(A)] of a rank-2 array, [np.diag(v)] of a rank-1 array. *)
Definition np_diag_vec (A : matrix) : vector :=
  map (fun i => entry A i i) (seq 0 (Nat.min (fst (shape A)) (snd (shape A)))).

Definition np_diag_mat (v : vector) : matrix :=
  tabulate (length v) (length v)
    (fun i j => if (i =? j)%nat then nth i v 0 else 0).

Definition elementwise (op : float -> float -> float) (A B : matrix)
  : result matrix :=
  if shape_eqb (shape A) (shape B)
  then Ok (tabulate (fst (shape A)) (snd (shape A))
             (fun i j => op (entry A i j) (entry B i j)))
  else Raise ValueError.

Definition madd : matrix -> matrix -> result matrix := elementwise add.
Definition msub : matrix -> matrix -> result matrix := elementwise sub.

Definition scale (c : float) (A : matrix) : matrix :=
  tabulate (fst (shape A)) (snd (shape A)) (fun i j => c * entry A i j).

(** [A @ B] *)
Definition matmul (A B : matrix) : result matrix :=
  if (snd (shape A) =? fst (shape B))%nat
  then Ok (tabulate (fst (shape A)) (snd (shape B))
             (fun i j => sum_upto (snd (shape A))
                           (fun k => entry A i k * entry B k j)))
  else Raise ValueError.

Definition reshape (A : matrix) (len : nat) : result vector :=
  if (len =? fst (shape A) * snd (shape A))%nat
  then Ok (concat A)
  else Raise ValueError.

(** [np.abs(v)] *)
Definition np_abs (v : vector) : vector := map abs v.

(** The larger of two floats; a NaN wins, as in [np.max]. *)
Definition fmax (x y : float) : float :=
  if is_nan x then x
  else if is_nan y then y
  else if ltb x y then y else x.

(** [np.max(v)] *)
Definition np_max (v : vector) : result float :=
  match v with
  | [] => Raise ValueError
  | x :: v' => Ok (fold_left fmax v' x)
  end.

(** The variables one pass of the loop hands to the next: [H2], [Vmax]
    (unbound before the first pass) and [U]. *)
Record state : Type := State {
  st_H2 : matrix;
  st_Vmax : option float;
  st_U : matrix
}.

(** One iteration of the loop, on the values of [H2], [Vmax] and [U]. *)
Definition flow_iteration (n : nat) (dl : float) (st : state)
  : result state :=
  let H2 := st_H2 st in
  let U := st_U st in
  let H0 := np_diag_mat (np_diag_vec H2) in
  (V <~ msub H2 H0 ;;
   flat <~ reshape V (n ^ 2) ;;
   Vmax <~ np_max (np_abs flat) ;;
   H0V <~ matmul H0 V ;;
   VH0 <~ matmul V H0 ;;
   eta <~ msub H0V VH0 ;;
   T <~ madd (identity n) (scale dl eta) ;;
   U' <~ matmul T U ;;
   etaH <~ matmul eta H2 ;;
   Heta <~ matmul H2 eta ;;
   dH <~ msub etaH Heta ;;
   H2' <~ madd H2 (scale dl dH) ;;
   Ok (State H2' (Some Vmax) U'))%flow.

(** [for q in range(steps): body] *)
Fixpoint for_range {S : Type} (steps : nat) (body : S -> result S) (st : S)
  : result S :=
  match steps with
  | O => Ok st
  | Datatypes.S k => (st' <~ body st ;; for_range k body st')%flow
  end.

(** [flow(H, dl, steps)] *)
Definition flow (H : matrix) (dl : float) (steps : nat)
  : result (matrix * float * matrix) :=
  let n := fst (shape H) in
  (st <~ for_range steps (flow_iteration n dl) (State H None (identity n)) ;;
   match st_Vmax st with
   | None => Raise UnboundLocalError
   | Some Vmax => Ok (st_H2 st, Vmax, st_U st)
   end)%flow.

(** The same loop with the state of each pass looked at before the next
    pass starts.  Both branches are the same, so [seen] only fixes the
    order of evaluation: floats are computed pass by pass, as the
    interpreter does, and not on demand at the end of the run. *)
Fixpoint for_range_eager {S : Type} (seen : S -> bool) (steps : nat)
    (body : S -> result S) (st : S) : result S :=
  match steps with
  | O => Ok st
  | Datatypes.S k =>
      (st' <~ body st ;;
       if seen st' then for_range_eager seen k body st'
       else for_range_eager seen k body st')%flow
  end.

(** Looks at a float, at every float of a state. *)
Definition known (x : float) : bool := (x =? x) || true.

Definition evaluated (st : state) : bool :=
  forallb (forallb known) (st_H2 st) &&
  match st_Vmax st with Some x => known x | None => true end &&
  forallb (forallb known) (st_U st).

(** [np.sort(v)]: ascending, NaN last. *)
Fixpoint insert (x : float) (l : vector) : vector :=
  match l with
  | [] => [x]
  | y :: l' => if leb x y || is_nan y then x :: l else y :: insert x l'
  end.

Definition np_sort (v : vector) : vector := fold_right insert [] v.

(** [np.sort(np.diag(Hdiag[0]))], for [Hdiag] the result of a call. *)
Definition sorted_diagonal (Hdiag : result (matrix * float * matrix))
  : result vector :=
  (r <~ Hdiag ;; Ok (np_sort (np_diag_vec (fst (fst r)))))%flow.

(** The rational number a finite float is. *)
Definition exact (f : float) : option Q :=
  match FloatOps.Prim2SF f with
  | SpecFloat.S754_zero _ => Some (0 # 1)%Q
  | SpecFloat.S754_finite s m e =>
      Some (Qmult (inject_Z (if s then Zneg m else Zpos m))
                  (Qpower (2 # 1)%Q e))
  | _ => None
  end.

Fixpoint exact_list (v : vector) : option (list Q) :=
  match v with
  | [] => Some []
  | f :: v' =>
      match exact f, exact_list v' with
      | Some q, Some qs => Some (q :: qs)
      | _, _ => None
      end
  end.

Fixpoint exact_matrix (A : matrix) : option (list (list Q)) :=
  match A with
  | [] => Some []
  | r :: A' =>
      match exact_list r, exact_matrix A' with
      | Some q, Some qs => Some (q :: qs)
      | _, _ => None
      end
  end.

(** The scenario: on-site energies [2.108, 2.935, -3.299, 1.208], coupling
    [1], the step [1e-3]. *)
Definition H_chain : matrix :=
  [[2.108; 1; 0; 0];
   [1; 2.935; 1; 0];
   [0; 1; -3.299; 1];
   [0; 0; 1; 1.208]].

Definition dl_default : float := 0.001.

End Binary64.

(* ================================================================= *)
(** * Determinants and characteristic polynomials *)

Section Determinant.

Variable T : Type.
Variables (tzero tone : T) (tadd tmul tsub : T -> T -> T) (topp : T -> T).

(** [f] applied to the elements of a list and their indices, from [i] on. *)
Fixpoint imap {A B : Type} (f : nat -> A -> B) (i : nat) (l : list A)
  : list B :=
  match l with
  | [] => []
  | a :: l' => f i a :: imap f (S i) l'
  end.

(** The list without its element [j]. *)
Fixpoint drop_nth {A : Type} (j : nat) (l : list A) : list A :=
  match l, j with
  | [], _ => []
  | _ :: l', O => l'
  | a :: l', S j' => a :: drop_nth j' l'
  end.

(** The expansion of a determinant along its first row, from column [j] on:
    [d] is the determinant of the minors, [neg] the sign of the next term. *)
Fixpoint expand (d : list (list T) -> T) (neg : bool) (j : nat)
    (row : list T) (rest : list (list T)) : T :=
  match row with
  | [] => tzero
  | a :: row' =>
      let term := tmul a (d (map (drop_nth j) rest)) in
      tadd (if neg then topp term else term)
           (expand d (negb neg) (S j) row' rest)
  end.

(** The determinant of an [n] by [n] matrix. *)
Fixpoint det (n : nat) (M : list (list T)) : T :=
  match n with
  | O => tone
  | S n' =>
      match M with
      | [] => tzero
      | row :: rest => expand (det n') false 0 row rest
      end
  end.

(** [x*I - A] *)
Definition char_matrix (A : list (list T)) (x : T) : list (list T) :=
  imap (fun i row =>
          imap (fun j a => tsub (if (i =? j)%nat then x else tzero) a) 0 row)
       0 A.

(** The characteristic polynomial [det(x*I - A)] at [x]. *)
Definition charpoly (A : list (list T)) (x : T) : T :=
  det (length A) (char_matrix A x).

End Determinant.

(** Over the rationals and over the reals. *)
Definition detQ : nat -> list (list Q) -> Q :=
  det (0 # 1)%Q (1 # 1)%Q Qplus Qmult Qopp.

Definition charpolyQ : list (list Q) -> Q -> Q :=
  charpoly (0 # 1)%Q (1 # 1)%Q Qplus Qmult Qminus Qopp.

Definition detR : nat -> list (list Rdefinitions.R) -> Rdefinitions.R :=
  det Rdefinitions.R0 Rdefinitions.R1 Rdefinitions.Rplus Rdefinitions.Rmult
    Rdefinitions.Ropp.

Definition charpolyR
  : list (list Rdefinitions.R) -> Rdefinitions.R -> Rdefinitions.R :=
  charpoly Rdefinitions.R0 Rdefinitions.R1 Rdefinitions.Rplus
    Rdefinitions.Rmult Rdefinitions.Rminus Rdefinitions.Ropp.

(** A real matrix from a rational one. *)
Definition real_matrix (A : list (list Q)) : list (list Rdefinitions.R) :=
  map (map Rdefinitions.Q2R) A.

(** [lam] is an eigenvalue of [A]: a real root of its characteristic
    polynomial. *)
Definition eigenvalue (A : list (list Q)) (lam : Rdefinitions.R) : Prop :=
  charpolyR (real_matrix A) lam = Rdefinitions.R0.

(** A matrix of functions at a point. *)
Definition at_point (x : Rdefinitions.R)
    (Mf : list (list (Rdefinitions.R -> Rdefinitions.R)))
  : list (list Rdefinitions.R) :=
  map (map (fun f => f x)) Mf.

(* ================================================================= *)
(** * Concrete inputs *)

Module Runs.

Local Open Scope Z_scope.

(** A symmetric 2 by 2 Hamiltonian whose level spacing is too wide for the
    step [dl = 1]. *)
Definition H_wide : matrix Zscalar := [[2; 1]; [1; 0]].

(** A diagonal 2 by 2 Hamiltonian. *)
Definition H_diag : matrix Zscalar := [[3; 0]; [0; -1]].

(** The 4-site chain of the notebook: on-site energies
    [2.108, 2.935, -3.299, 1.208], nearest-neighbour coupling [J = 1]. *)
Definition dec (m : Z) : Qcscalar := Q2Qc (m # 1000).

Definition H_chain : matrix Qcscalar :=
  [[dec 2108; dec 1000; dec 0; dec 0];
   [dec 1000; dec 2935; dec 1000; dec 0];
   [dec 0; dec 1000; dec (-3299); dec 1000];
   [dec 0; dec 0; dec 1000; dec 1208]].

(** The default step, [dl = 10**(-3)]. *)
Definition dl_default : Qcscalar := dec 1.

(** A 2 by 2 Hamiltonian that one step of size [dl = 1] diagonalizes. *)
Definition H_near : matrix Zscalar := [[1; 297]; [297; 0]].

End Runs.

(* ================================================================= *)
(** * Sums, tables and arrays *)

Unset Implicit Arguments.

Section Algebra.

Context {R : scalar}.
Local Open Scope scalar_scope.

Add Ring sum_ring : (scalar_ring R).

Lemma sum_upto_ext (n : nat) (f g : nat -> R) :
  (forall i, (i < n)%nat -> f i = g i) -> sum_upto n f = sum_upto n g.
Proof.
  induction n as [|n IH]; intros Hfg; simpl.
  - reflexivity.
  - rewrite IH by (intros; apply Hfg; lia).
    rewrite (Hfg n) by lia. reflexivity.
Qed.

Lemma sum_upto_zero (n : nat) : sum_upto n (fun _ => 0 : R) = 0.
Proof. induction n as [|n IH]; simpl; [reflexivity | rewrite IH; ring]. Qed.

Lemma sum_upto_add (n : nat) (f g : nat -> R) :
  sum_upto n (fun i => f i + g i) = sum_upto n f + sum_upto n g.
Proof. induction n as [|n IH]; simpl; [ring | rewrite IH; ring]. Qed.

Lemma sum_upto_sub (n : nat) (f g : nat -> R) :
  sum_upto n (fun i => f i - g i) = sum_upto n f - sum_upto n g.
Proof. induction n as [|n IH]; simpl; [ring | rewrite IH; ring]. Qed.

Lemma sum_upto_scal (n : nat) (c : R) (f : nat -> R) :
  sum_upto n (fun i => c * f i) = c * sum_upto n f.
Proof. induction n as [|n IH]; simpl; [ring | rewrite IH; ring]. Qed.

(** The order of a double sum can be exchanged. *)
Lemma sum_upto_swap (n m : nat) (f : nat -> nat -> R) :
  sum_upto n (fun i => sum_upto m (fun j => f i j)) =
  sum_upto m (fun j => sum_upto n (fun i => f i j)).
Proof.
  induction n as [|n IH]; simpl.
  - now rewrite sum_upto_zero.
  - rewrite IH. now rewrite sum_upto_add.
Qed.

(** A sum with a single non-zero term. *)
Lemma sum_upto_single (n i : nat) (f : nat -> R) :
  (i < n)%nat ->
  (forall k, (k < n)%nat -> k <> i -> f k = 0) ->
  sum_upto n f = f i.
Proof.
  induction n as [|n IH]; intros Hi Hz; [lia|]. simpl.
  destruct (Nat.eq_dec i n) as [->|Hne].
  - rewrite (@sum_upto_ext n f (fun _ => 0)).
    + rewrite sum_upto_zero. ring.
    + intros k Hk. apply Hz; lia.
  - rewrite IH by (try lia; intros; apply Hz; lia).
    rewrite (Hz n) by lia. ring.
Qed.

Lemma tabulate_length (n m : nat) (f : nat -> nat -> R) :
  length (tabulate n m f) = n.
Proof. unfold tabulate. now rewrite length_map, length_seq. Qed.

Lemma entry_tabulate (n m : nat) (f : nat -> nat -> R) (i j : nat) :
  (i < n)%nat -> (j < m)%nat -> entry (tabulate n m f) i j = f i j.
Proof.
  intros Hi Hj. unfold entry, tabulate.
  rewrite (nth_indep _ [] (map (f 0%nat) (seq 0 m)))
    by now rewrite length_map, length_seq.
  rewrite (map_nth (fun i => map (f i) (seq 0 m)) (seq 0 n) 0%nat i).
  rewrite seq_nth by assumption. simpl.
  rewrite (nth_indep _ 0 (f i 0%nat)) by now rewrite length_map, length_seq.
  rewrite (map_nth (f i) (seq 0 m) 0%nat j).
  now rewrite seq_nth.
Qed.

Lemma tabulate_ext (n m : nat) (f g : nat -> nat -> R) :
  (forall i j, (i < n)%nat -> (j < m)%nat -> f i j = g i j) ->
  tabulate n m f = tabulate n m g.
Proof.
  intros Hfg. unfold tabulate.
  apply map_ext_in. intros i Hi. apply in_seq in Hi.
  apply map_ext_in. intros j Hj. apply in_seq in Hj.
  apply Hfg; lia.
Qed.

Lemma is_array_spec (n m : nat) (A : matrix R) :
  is_array n m A = true <->
  length A = n /\ forall r, In r A -> length r = m.
Proof.
  unfold is_array. rewrite andb_true_iff, Nat.eqb_eq, forallb_forall.
  split; intros [Hn Hr]; split; auto; intros r Hin.
  - now apply Nat.eqb_eq, Hr.
  - now apply Nat.eqb_eq, Hr.
Qed.

Lemma is_array_tabulate (n m : nat) (f : nat -> nat -> R) :
  is_array n m (tabulate n m f) = true.
Proof.
  apply is_array_spec. split; [apply tabulate_length|].
  intros r Hin. unfold tabulate in Hin. apply in_map_iff in Hin.
  destruct Hin as [i [<- _]]. now rewrite length_map, length_seq.
Qed.

Lemma is_array_shape (n m : nat) (A : matrix R) :
  is_array n m A = true -> (1 <= n)%nat -> shape A = (n, m).
Proof.
  intros HA Hn. apply is_array_spec in HA. destruct HA as [Hlen Hrows].
  unfold shape. destruct A as [|r A]; simpl in *; [lia|].
  rewrite Hlen. f_equal. apply Hrows. now left.
Qed.

Lemma is_array_square_shape (n : nat) (A : matrix R) :
  is_array n n A = true -> shape A = (n, n).
Proof.
  intros HA. destruct n as [|n].
  - apply is_array_spec in HA. destruct HA as [Hlen _].
    destruct A; [reflexivity | discriminate].
  - apply is_array_shape; [assumption | lia].
Qed.

(** Two arrays of one shape with the same entries are equal. *)
Lemma array_ext (n m : nat) (A B : matrix R) :
  is_array n m A = true -> is_array n m B = true ->
  (forall i j, (i < n)%nat -> (j < m)%nat -> entry A i j = entry B i j) ->
  A = B.
Proof.
  intros HA HB Heq.
  apply is_array_spec in HA. destruct HA as [HlA HrA].
  apply is_array_spec in HB. destruct HB as [HlB HrB].
  apply (nth_ext A B [] []); [congruence|].
  intros i Hi.
  assert (HiA : length (nth i A []) = m) by (apply HrA, nth_In; lia).
  assert (HiB : length (nth i B []) = m) by (apply HrB, nth_In; lia).
  apply (nth_ext _ _ 0 0); [congruence|].
  intros j Hj. apply Heq; lia.
Qed.

Lemma array_tabulate (n m : nat) (A : matrix R) :
  is_array n m A = true -> A = tabulate n m (entry A).
Proof.
  intros HA. apply (array_ext n m); auto using is_array_tabulate.
  intros i j Hi Hj. now rewrite entry_tabulate.
Qed.

End Algebra.

(* ================================================================= *)
(** * The order on scalars and the maximum of a list *)

Section Order.

Context {R : scalar}.
Local Open Scope scalar_scope.

Lemma leb_refl (x : R) : (x <=? x) = true.
Proof. destruct (leb_total R x x); assumption. Qed.

Lemma sabs_zero : sabs (0 : R) = 0.
Proof. unfold sabs. now rewrite leb_refl. Qed.

Lemma smax_cases (x y : R) : smax x y = x \/ smax x y = y.
Proof. unfold smax. destruct (x <=? y); auto. Qed.

Lemma smax_ub_l (x y : R) : (x <=? smax x y) = true.
Proof.
  unfold smax. destruct (x <=? y) eqn:E; [assumption | apply leb_refl].
Qed.

Lemma smax_ub_r (x y : R) : (y <=? smax x y) = true.
Proof.
  unfold smax. destruct (x <=? y) eqn:E; [apply leb_refl|].
  destruct (leb_total R x y); congruence.
Qed.

Lemma fold_smax_ge_init (l : list R) (a : R) :
  (a <=? fold_left smax l a) = true.
Proof.
  revert a. induction l as [|x l IH]; intros a; simpl.
  - apply leb_refl.
  - apply (leb_trans R _ (smax a x)); [apply smax_ub_l | apply IH].
Qed.

Lemma fold_smax_ub (l : list R) (a y : R) :
  In y (a :: l) -> (y <=? fold_left smax l a) = true.
Proof.
  revert a. induction l as [|x l IH]; intros a Hin; simpl.
  - destruct Hin as [<-|[]]. apply leb_refl.
  - destruct Hin as [<-|[<-|Hin]].
    + apply (leb_trans R _ (smax a x)); [apply smax_ub_l | apply fold_smax_ge_init].
    + apply (leb_trans R _ (smax a x)); [apply smax_ub_r | apply fold_smax_ge_init].
    + apply IH. now right.
Qed.

Lemma fold_smax_in (l : list R) (a : R) : In (fold_left smax l a) (a :: l).
Proof.
  revert a. induction l as [|x l IH]; intros a; simpl.
  - now left.
  - destruct (IH (smax a x)) as [E|Hin].
    + destruct (smax_cases a x) as [Ea|Ex].
      * left. congruence.
      * right. left. congruence.
    + right. now right.
Qed.

(** Two lists with the same elements have the same maximum. *)
Lemma fold_smax_same_elements (l l' : list R) (a b : R) :
  (forall y, In y (a :: l) -> In y (b :: l')) ->
  (forall y, In y (b :: l') -> In y (a :: l)) ->
  fold_left smax l a = fold_left smax l' b.
Proof.
  intros H1 H2. apply (leb_antisym R).
  - apply fold_smax_ub, H1, fold_smax_in.
  - apply fold_smax_ub, H2, fold_smax_in.
Qed.

End Order.

(* ================================================================= *)
(** * The NumPy operations on square arrays *)

Section Numpy.

Context {R : scalar}.
Local Open Scope scalar_scope.

Add Ring numpy_ring : (scalar_ring R).

Lemma nth_map_seq {A : Type} (f : nat -> A) (n i : nat) (d : A) :
  (i < n)%nat -> nth i (map f (seq 0 n)) d = f i.
Proof.
  intros Hi.
  rewrite (nth_indep _ d (f 0%nat)) by now rewrite length_map, length_seq.
  rewrite (map_nth f (seq 0 n) 0%nat i). now rewrite seq_nth.
Qed.

Lemma np_diag_square (n : nat) (A : matrix R) :
  is_array n n A = true ->
  np_diag_mat (np_diag_vec A) = spec_diag_part n A.
Proof.
  intros HA. unfold np_diag_mat, np_diag_vec, spec_diag_part.
  rewrite (is_array_square_shape n A HA). simpl fst; simpl snd.
  rewrite Nat.min_id, length_map, length_seq.
  apply tabulate_ext. intros i j Hi Hj.
  destruct (i =? j)%nat; [|reflexivity].
  now rewrite nth_map_seq.
Qed.

Lemma elementwise_square (op : R -> R -> R) (n : nat) (A B : matrix R) :
  is_array n n A = true -> is_array n n B = true ->
  elementwise op A B =
  Ok (tabulate n n (fun i j => op (entry A i j) (entry B i j))).
Proof.
  intros HA HB. unfold elementwise, shape_eqb.
  rewrite (is_array_square_shape n A HA), (is_array_square_shape n B HB).
  simpl. now rewrite Nat.eqb_refl.
Qed.

Lemma msub_square (n : nat) (A B : matrix R) :
  is_array n n A = true -> is_array n n B = true ->
  msub A B = Ok (mminus n A B).
Proof. apply elementwise_square. Qed.

Lemma madd_square (n : nat) (A B : matrix R) :
  is_array n n A = true -> is_array n n B = true ->
  madd A B = Ok (mplus n A B).
Proof. apply elementwise_square. Qed.

Lemma matmul_square (n : nat) (A B : matrix R) :
  is_array n n A = true -> is_array n n B = true ->
  matmul A B = Ok (mtimes n A B).
Proof.
  intros HA HB. unfold matmul.
  rewrite (is_array_square_shape n A HA), (is_array_square_shape n B HB).
  simpl. now rewrite Nat.eqb_refl.
Qed.

Lemma scale_square (n : nat) (c : R) (A : matrix R) :
  is_array n n A = true -> scale c A = mscale n c A.
Proof.
  intros HA. unfold scale. now rewrite (is_array_square_shape n A HA).
Qed.

Lemma reshape_square (n : nat) (A : matrix R) :
  is_array n n A = true -> reshape A (n ^ 2) = Ok (concat A).
Proof.
  intros HA. unfold reshape. rewrite (is_array_square_shape n A HA).
  simpl fst; simpl snd. rewrite Nat.pow_2_r. now rewrite Nat.eqb_refl.
Qed.

Lemma identity_is_array (n : nat) : is_array n n (@identity R n) = true.
Proof. apply is_array_tabulate. Qed.

(** The entries of a flattened table. *)
Lemma in_concat_tabulate (n m : nat) (f : nat -> nat -> R) (y : R) :
  In y (concat (tabulate n m f)) <->
  exists i j, (i < n)%nat /\ (j < m)%nat /\ y = f i j.
Proof.
  rewrite in_concat. unfold tabulate. split.
  - intros [r [Hr Hy]]. apply in_map_iff in Hr. destruct Hr as [i [<- Hi]].
    apply in_map_iff in Hy. destruct Hy as [j [<- Hj]].
    apply in_seq in Hi. apply in_seq in Hj.
    exists i, j. repeat split; lia.
  - intros [i [j [Hi [Hj ->]]]].
    exists (map (f i) (seq 0 m)). split.
    + apply in_map_iff. exists i. split; [reflexivity | apply in_seq; lia].
    + apply in_map_iff. exists j. split; [reflexivity | apply in_seq; lia].
Qed.

Lemma in_offdiag_indices (n : nat) (p : nat * nat) :
  In p (offdiag_indices n) <->
  (fst p < n)%nat /\ (snd p < n)%nat /\ fst p <> snd p.
Proof.
  unfold offdiag_indices. rewrite filter_In. destruct p as [i j]. simpl.
  rewrite in_prod_iff, !in_seq, negb_true_iff, Nat.eqb_neq. lia.
Qed.

(** The off-diagonal remainder [V = H - H0], entry by entry. *)
Lemma entry_remainder (n : nat) (A : matrix R) (i j : nat) :
  (i < n)%nat -> (j < n)%nat ->
  entry (mminus n A (spec_diag_part n A)) i j =
  if (i =? j)%nat then 0 else entry A i j.
Proof.
  intros Hi Hj. unfold mminus, spec_diag_part.
  rewrite !entry_tabulate by assumption.
  destruct (i =? j)%nat eqn:E.
  - apply Nat.eqb_eq in E. subst j. ring.
  - ring.
Qed.

(** [np.max(np.abs(V.reshape(n**2)))] is the largest absolute off-diagonal
    entry of [H2]: the diagonal of [V] only contributes zeros. *)
Lemma np_max_remainder (n : nat) (A : matrix R) :
  (1 <= n)%nat ->
  np_max (np_abs (concat (mminus n A (spec_diag_part n A)))) =
  Ok (spec_offdiag_max n A).
Proof.
  intros Hn.
  set (V := mminus n A (spec_diag_part n A)).
  assert (Hmem : forall y, In y (np_abs (concat V)) <->
            exists i j, (i < n)%nat /\ (j < n)%nat /\
              y = sabs (if (i =? j)%nat then 0 else entry A i j)).
  { intros y. unfold np_abs. rewrite in_map_iff. split.
    - intros [x [<- Hx]]. unfold V, mminus in Hx.
      apply in_concat_tabulate in Hx. destruct Hx as [i [j [Hi [Hj ->]]]].
      exists i, j. repeat split; try assumption.
      f_equal. rewrite <- (entry_remainder n A i j Hi Hj).
      unfold mminus. now rewrite entry_tabulate.
    - intros [i [j [Hi [Hj ->]]]].
      exists (entry V i j). split.
      + unfold V. now rewrite entry_remainder.
      + unfold V at 1. unfold mminus. apply in_concat_tabulate.
        exists i, j. repeat split; try assumption.
        unfold V, mminus. now rewrite entry_tabulate. }
  unfold spec_offdiag_max.
  destruct (np_abs (concat V)) as [|x v] eqn:E.
  - exfalso. apply (proj2 (Hmem 0)).
    exists 0%nat, 0%nat. repeat split; try lia. simpl. now rewrite sabs_zero.
  - simpl. f_equal. apply fold_smax_same_elements.
    + intros y Hy. apply Hmem in Hy. destruct Hy as [i [j [Hi [Hj ->]]]].
      destruct (i =? j)%nat eqn:Eij.
      * left. now rewrite sabs_zero.
      * right. apply in_map_iff. exists (i, j). split; [reflexivity|].
        apply in_offdiag_indices. simpl. apply Nat.eqb_neq in Eij. lia.
    + intros y [<-|Hy]; apply Hmem.
      * exists 0%nat, 0%nat. repeat split; try lia. simpl. now rewrite sabs_zero.
      * apply in_map_iff in Hy. destruct Hy as [[i j] [<- Hp]].
        apply in_offdiag_indices in Hp. simpl in Hp.
        exists i, j. repeat split; try lia. simpl.
        destruct (i =? j)%nat eqn:Eij; [apply Nat.eqb_eq in Eij; lia | reflexivity].
Qed.

(** The results of the array operations are [n] by [n] arrays. *)
Lemma is_array_mplus (n : nat) (A B : matrix R) :
  is_array n n (mplus n A B) = true.
Proof. apply is_array_tabulate. Qed.

Lemma is_array_mminus (n : nat) (A B : matrix R) :
  is_array n n (mminus n A B) = true.
Proof. apply is_array_tabulate. Qed.

Lemma is_array_mtimes (n : nat) (A B : matrix R) :
  is_array n n (mtimes n A B) = true.
Proof. apply is_array_tabulate. Qed.

Lemma is_array_mscale (n : nat) (c : R) (A : matrix R) :
  is_array n n (mscale n c A) = true.
Proof. apply is_array_tabulate. Qed.

Lemma is_array_diag_part (n : nat) (A : matrix R) :
  is_array n n (spec_diag_part n A) = true.
Proof. apply is_array_tabulate. Qed.

Lemma is_array_generator (n : nat) (A : matrix R) :
  is_array n n (spec_generator n A) = true.
Proof. apply is_array_tabulate. Qed.

End Numpy.

Create HintDb arrays.

#[global] Hint Resolve is_array_mplus is_array_mminus is_array_mtimes
  is_array_mscale is_array_diag_part is_array_generator identity_is_array
  : arrays.

(* ================================================================= *)
(** * Running [flow] *)

Section Run.

Context {R : scalar}.
Local Open Scope scalar_scope.

Lemma is_array_euler_step (n : nat) (dl : R) (s : matrix R * matrix R) :
  is_array n n (fst (spec_euler_step n dl s)) = true /\
  is_array n n (snd (spec_euler_step n dl s)) = true.
Proof. unfold spec_euler_step; simpl; auto with arrays. Qed.

(** The Hamiltonian and the unitary of [spec_state] are [n] by [n] arrays. *)
Lemma is_array_iter (n : nat) (dl : R) (k : nat) (s : matrix R * matrix R) :
  is_array n n (fst s) = true -> is_array n n (snd s) = true ->
  is_array n n (fst (Nat.iter k (spec_euler_step n dl) s)) = true /\
  is_array n n (snd (Nat.iter k (spec_euler_step n dl) s)) = true.
Proof.
  intros H1 H2. destruct k as [|k]; simpl; [auto|].
  apply is_array_euler_step.
Qed.

Lemma is_array_spec_state (n : nat) (dl : R) (A : matrix R) (k : nat) :
  is_array n n A = true ->
  is_array n n (fst (spec_state n dl A k)) = true /\
  is_array n n (snd (spec_state n dl A k)) = true.
Proof.
  intros HA. apply is_array_iter; simpl; auto with arrays.
Qed.

(** On square arrays no line of the loop body raises, and the locals are the
    quantities of the Euler step. *)
Lemma loop_body_square (n : nat) (dl : R) (A U : matrix R) :
  is_array n n A = true -> is_array n n U = true -> (1 <= n)%nat ->
  loop_body n dl A U =
  Ok {| l_H0 := spec_diag_part n A;
        l_V := mminus n A (spec_diag_part n A);
        l_Vmax := spec_offdiag_max n A;
        l_eta := spec_generator n A;
        l_U := snd (spec_euler_step n dl (A, U));
        l_dH := mminus n (mtimes n (spec_generator n A) A)
                         (mtimes n A (spec_generator n A)) |}.
Proof.
  intros HA HU Hn. unfold loop_body.
  rewrite (np_diag_square n A HA).
  rewrite (msub_square n) by auto with arrays. simpl rbind.
  rewrite (reshape_square n) by auto with arrays. simpl rbind.
  rewrite (np_max_remainder n A Hn). simpl rbind.
  rewrite !(matmul_square n) by auto with arrays. simpl rbind.
  rewrite (msub_square n) by auto with arrays. simpl rbind.
  rewrite (scale_square n) by auto with arrays.
  rewrite (madd_square n) by auto with arrays. simpl rbind.
  rewrite (matmul_square n) by auto with arrays. simpl rbind.
  fold (spec_generator n A).
  rewrite !(matmul_square n) by auto with arrays. simpl rbind.
  rewrite (msub_square n) by auto with arrays. simpl rbind.
  reflexivity.
Qed.

Lemma nth_error_snoc (h : heap R) (A : matrix R) :
  nth_error (h ++ [A]) (length h) = Some A.
Proof. rewrite nth_error_app2 by lia. now rewrite Nat.sub_diag. Qed.

Lemma store_snoc (h : heap R) (A B : matrix R) :
  store (length h) B (h ++ [A]) = h ++ [B].
Proof. induction h as [|C h IH]; simpl; [reflexivity | now rewrite IH]. Qed.

Lemma flow_iteration_run (n : nat) (dl : R) (h : heap R) (A U : matrix R)
    (v : option R) :
  is_array n n A = true -> is_array n n U = true -> (1 <= n)%nat ->
  flow_iteration n dl (length h) (v, U) (h ++ [A]) =
  (h ++ [fst (spec_euler_step n dl (A, U))],
   Ok (Some (spec_offdiag_max n A), snd (spec_euler_step n dl (A, U)))).
Proof.
  intros HA HU Hn. unfold flow_iteration, bind, load, lift, iadd, ret.
  rewrite nth_error_snoc. simpl snd.
  rewrite (loop_body_square n dl A U HA HU Hn). simpl.
  rewrite nth_error_snoc.
  rewrite (scale_square n) by auto with arrays.
  rewrite (madd_square n) by auto with arrays.
  now rewrite store_snoc.
Qed.

(** The loop, started on the store [h ++ [A]] with [H2] the last object. *)
Lemma for_range_run (n : nat) (dl : R) (h : heap R) (k : nat) :
  (1 <= n)%nat ->
  forall (A U : matrix R) (v : option R),
  is_array n n A = true -> is_array n n U = true ->
  for_range k (flow_iteration n dl (length h)) (v, U) (h ++ [A]) =
  (h ++ [fst (Nat.iter k (spec_euler_step n dl) (A, U))],
   Ok (match k with
       | O => v
       | S k' => Some (spec_offdiag_max n
                         (fst (Nat.iter k' (spec_euler_step n dl) (A, U))))
       end,
       snd (Nat.iter k (spec_euler_step n dl) (A, U)))).
Proof.
  intros Hn. induction k as [|k IH]; intros A U v HA HU.
  - reflexivity.
  - cbn [for_range]. unfold bind at 1.
    rewrite (flow_iteration_run n dl h A U v HA HU Hn).
    destruct (is_array_euler_step n dl (A, U)) as [HA' HU'].
    rewrite (IH _ _ _ HA' HU').
    rewrite <- surjective_pairing.
    rewrite <- !Nat.iter_succ_r.
    destruct k as [|k']; [reflexivity|].
    now rewrite <- Nat.iter_succ_r.
Qed.

(** A call with at least one step on an [n] by [n] array, [n >= 1]. *)
Lemma flow_run (n : nat) (dl : R) (h : heap R) (H : loc) (A : matrix R)
    (k : nat) :
  nth_error h H = Some A -> is_array n n A = true -> (1 <= n)%nat ->
  flow H dl (S k) h =
  (h ++ [fst (spec_state n dl A (S k))],
   Ok (length h, spec_offdiag_max n (fst (spec_state n dl A k)),
       snd (spec_state n dl A (S k)))).
Proof.
  intros HH HA Hn. unfold flow, bind at 1, deepcopy. rewrite HH.
  unfold bind at 1, load. rewrite nth_error_snoc.
  rewrite (is_array_square_shape n A HA). simpl fst.
  unfold bind.
  rewrite (for_range_run n dl h (S k) Hn A (identity n) None HA
             (identity_is_array n)).
  reflexivity.
Qed.

(** A call with no step: [Vmax] is still unbound at the [return]. *)
Lemma flow_run_zero (dl : R) (h : heap R) (H : loc) (A : matrix R) :
  nth_error h H = Some A ->
  flow H dl 0 h = (h ++ [A], Raise UnboundLocalError).
Proof.
  intros HH. unfold flow, bind at 1, deepcopy. rewrite HH.
  unfold bind at 1, load. rewrite nth_error_snoc. reflexivity.
Qed.

(** A call with at least one step on an empty array: [np.max] raises. *)
Lemma flow_run_empty (dl : R) (h : heap R) (H : loc) (k : nat) :
  nth_error h H = Some [] ->
  flow H dl (S k) h = (h ++ [[]], Raise ValueError).
Proof.
  intros HH. unfold flow, bind at 1, deepcopy. rewrite HH.
  unfold bind at 1, load. rewrite nth_error_snoc.
  cbn [for_range]. unfold bind, flow_iteration, bind, load.
  rewrite nth_error_snoc. reflexivity.
Qed.

(** A call that returns on a square array made at least one step on a
    non-empty array, and returns what [flow_run] says. *)
Lemma flow_returns_inv (n : nat) (dl : R) (h h' : heap R) (H l : loc)
    (A U : matrix R) (v : R) (steps : nat) :
  nth_error h H = Some A -> is_array n n A = true ->
  flow H dl steps h = (h', Ok (l, v, U)) ->
  exists k, steps = S k /\ (1 <= n)%nat /\
    h' = h ++ [fst (spec_state n dl A (S k))] /\ l = length h /\
    v = spec_offdiag_max n (fst (spec_state n dl A k)) /\
    U = snd (spec_state n dl A (S k)).
Proof.
  intros HH HA E. destruct steps as [|k].
  - rewrite (flow_run_zero dl h H A HH) in E. discriminate.
  - exists k. destruct n as [|n].
    + apply is_array_spec in HA. destruct HA as [Hlen _].
      destruct A; [|discriminate].
      rewrite (flow_run_empty dl h H k HH) in E. discriminate.
    + assert (Hn : (1 <= S n)%nat) by lia.
      rewrite (flow_run (S n) dl h H A k HH HA Hn) in E.
      injection E as Eh El Ev EU. repeat split; auto.
Qed.

(** Whatever happens in an iteration, the store keeps its old objects. *)
Lemma flow_iteration_heap (n : nat) (dl : R) (h : heap R) (A : matrix R)
    (st : option R * matrix R) :
  exists A', fst (flow_iteration n dl (length h) st (h ++ [A])) = h ++ [A'].
Proof.
  unfold flow_iteration, bind, load, lift, iadd, ret.
  rewrite nth_error_snoc.
  destruct (loop_body n dl A (snd st)) as [fr|e]; [|now exists A].
  cbv beta iota. rewrite (nth_error_snoc h A).
  destruct (madd A (scale dl (l_dH fr))) as [B|e]; [|now exists A].
  exists B. simpl. apply store_snoc.
Qed.

Lemma for_range_heap (n : nat) (dl : R) (h : heap R) (k : nat) :
  forall (A : matrix R) (st : option R * matrix R),
  exists A',
    fst (for_range k (flow_iteration n dl (length h)) st (h ++ [A])) =
    h ++ [A'].
Proof.
  induction k as [|k IH]; intros A st.
  - now exists A.
  - cbn [for_range]. unfold bind.
    destruct (flow_iteration_heap n dl h A st) as [A1 HA1].
    destruct (flow_iteration n dl (length h) st (h ++ [A])) as [h1 [st1|e]];
      simpl in HA1; subst h1.
    + apply IH.
    + now exists A1.
Qed.

Lemma flow_heap (dl : R) (steps : nat) (h : heap R) (H : loc) :
  fst (flow H dl steps h) = h \/
  exists A', fst (flow H dl steps h) = h ++ [A'].
Proof.
  destruct (nth_error h H) as [A|] eqn:E.
  2:{ left. unfold flow, bind at 1, deepcopy. now rewrite E. }
  right. unfold flow, bind at 1, deepcopy. rewrite E.
  unfold bind at 1, load. rewrite nth_error_snoc.
  unfold bind.
  destruct (for_range_heap (fst (shape A)) dl h steps A
              (None, identity (fst (shape A)))) as [A' HA'].
  destruct (for_range steps _ _ _) as [h1 [[[v|] U]|e]];
    simpl in HA'; subst h1; now exists A'.
Qed.

End Run.

(* ================================================================= *)
(** * The algebra of one Euler step *)

Section Step.

Context {R : scalar}.
Local Open Scope scalar_scope.

Add Ring step_ring : (scalar_ring R).

Lemma entry_mplus (n : nat) (A B : matrix R) (i j : nat) :
  (i < n)%nat -> (j < n)%nat ->
  entry (mplus n A B) i j = entry A i j + entry B i j.
Proof. intros; unfold mplus; now rewrite entry_tabulate. Qed.

Lemma entry_mminus (n : nat) (A B : matrix R) (i j : nat) :
  (i < n)%nat -> (j < n)%nat ->
  entry (mminus n A B) i j = entry A i j - entry B i j.
Proof. intros; unfold mminus; now rewrite entry_tabulate. Qed.

Lemma entry_mtimes (n : nat) (A B : matrix R) (i j : nat) :
  (i < n)%nat -> (j < n)%nat ->
  entry (mtimes n A B) i j = sum_upto n (fun k => entry A i k * entry B k j).
Proof. intros; unfold mtimes; now rewrite entry_tabulate. Qed.

Lemma entry_mscale (n : nat) (c : R) (A : matrix R) (i j : nat) :
  (i < n)%nat -> (j < n)%nat ->
  entry (mscale n c A) i j = c * entry A i j.
Proof. intros; unfold mscale; now rewrite entry_tabulate. Qed.

Lemma entry_diag_part (n : nat) (A : matrix R) (i j : nat) :
  (i < n)%nat -> (j < n)%nat ->
  entry (spec_diag_part n A) i j = if (i =? j)%nat then entry A i i else 0.
Proof. intros; unfold spec_diag_part; now rewrite entry_tabulate. Qed.

Lemma entry_identity (n i j : nat) :
  (i < n)%nat -> (j < n)%nat ->
  entry (@identity R n) i j = if (i =? j)%nat then 1 else 0.
Proof. intros; unfold identity; now rewrite entry_tabulate. Qed.

(** The generator, entry by entry:
    [eta[i,j] = (H[i,i] - H[j,j]) * V[i,j]]. *)
Lemma entry_generator (n : nat) (H : matrix R) (i j : nat) :
  (i < n)%nat -> (j < n)%nat ->
  entry (spec_generator n H) i j =
  (entry H i i - entry H j j) * (if (i =? j)%nat then 0 else entry H i j).
Proof.
  intros Hi Hj. unfold spec_generator.
  rewrite entry_mminus, !entry_mtimes by assumption.
  rewrite (sum_upto_single n i) by
    first [ assumption
          | intros k Hk Hne; rewrite entry_diag_part by assumption;
            destruct (Nat.eqb_spec i k); [congruence | ring] ].
  rewrite (sum_upto_single n j) by
    first [ assumption
          | intros k Hk Hne; rewrite entry_diag_part by assumption;
            destruct (Nat.eqb_spec k j); [congruence | ring] ].
  rewrite !entry_diag_part, entry_remainder by assumption.
  rewrite !Nat.eqb_refl. ring.
Qed.

Lemma shape_transpose_square (n : nat) (A : matrix R) :
  is_array n n A = true ->
  transpose A = tabulate n n (fun i j => entry A j i).
Proof.
  intros HA. unfold transpose. now rewrite (is_array_square_shape n A HA).
Qed.

Lemma symmetric_entry (n : nat) (A : matrix R) (i j : nat) :
  is_array n n A = true -> symmetric A ->
  (i < n)%nat -> (j < n)%nat -> entry A i j = entry A j i.
Proof.
  intros HA Hs Hi Hj. unfold symmetric in Hs.
  rewrite (shape_transpose_square n A HA) in Hs.
  rewrite <- Hs at 1. now rewrite entry_tabulate.
Qed.

Lemma symmetric_intro (n : nat) (A : matrix R) :
  is_array n n A = true ->
  (forall i j, (i < n)%nat -> (j < n)%nat -> entry A i j = entry A j i) ->
  symmetric A.
Proof.
  intros HA Hs. unfold symmetric.
  rewrite (shape_transpose_square n A HA).
  apply (array_ext n n); auto using is_array_tabulate.
  intros i j Hi Hj. rewrite entry_tabulate by assumption. now apply Hs.
Qed.

(** For a symmetric [H] the generator changes sign under transposition. *)
Lemma generator_antisym_entry (n : nat) (H : matrix R) (i j : nat) :
  is_array n n H = true -> symmetric H ->
  (i < n)%nat -> (j < n)%nat ->
  entry (spec_generator n H) j i = - entry (spec_generator n H) i j.
Proof.
  intros HA Hs Hi Hj. rewrite !entry_generator by assumption.
  rewrite (symmetric_entry n H j i HA Hs Hj Hi).
  rewrite (Nat.eqb_sym j i). destruct (i =? j)%nat; ring.
Qed.

Lemma generator_antisym (n : nat) (H : matrix R) :
  is_array n n H = true -> symmetric H ->
  transpose (spec_generator n H) = mopp (spec_generator n H).
Proof.
  intros HA Hs. unfold mopp.
  rewrite (shape_transpose_square n _ (is_array_generator n H)).
  rewrite (is_array_square_shape n _ (is_array_generator n H)). simpl.
  apply tabulate_ext. intros i j Hi Hj.
  now apply generator_antisym_entry.
Qed.

(** The Hamiltonian after one step, entry by entry. *)
Lemma entry_step (n : nat) (dl : R) (H U : matrix R) (i j : nat) :
  (i < n)%nat -> (j < n)%nat ->
  entry (fst (spec_euler_step n dl (H, U))) i j =
  entry H i j +
  dl * (sum_upto n (fun k => entry (spec_generator n H) i k * entry H k j) -
        sum_upto n (fun k => entry H i k * entry (spec_generator n H) k j)).
Proof.
  intros Hi Hj. unfold spec_euler_step. simpl fst.
  rewrite entry_mplus, entry_mscale, entry_mminus, !entry_mtimes by assumption.
  reflexivity.
Qed.

(** One step keeps a symmetric Hamiltonian symmetric. *)
Lemma step_symmetric (n : nat) (dl : R) (H U : matrix R) :
  is_array n n H = true -> symmetric H ->
  symmetric (fst (spec_euler_step n dl (H, U))).
Proof.
  intros HA Hs.
  apply (symmetric_intro n); [apply is_array_euler_step|].
  intros i j Hi Hj. rewrite !entry_step by assumption.
  rewrite (symmetric_entry n H i j HA Hs Hi Hj).
  f_equal. f_equal.
  rewrite <- !sum_upto_sub. apply sum_upto_ext. intros k Hk.
  rewrite (generator_antisym_entry n H k i HA Hs Hk Hi).
  rewrite (generator_antisym_entry n H j k HA Hs Hj Hk).
  rewrite (symmetric_entry n H k j HA Hs Hk Hj).
  rewrite (symmetric_entry n H i k HA Hs Hi Hk).
  ring.
Qed.

Lemma spec_state_symmetric (n : nat) (dl : R) (H : matrix R) (k : nat) :
  is_array n n H = true -> symmetric H ->
  symmetric (fst (spec_state n dl H k)).
Proof.
  intros HA Hs. induction k as [|k IH]; [exact Hs|].
  unfold spec_state in *. simpl Nat.iter.
  rewrite (surjective_pairing (Nat.iter k _ _)).
  apply step_symmetric; [|exact IH].
  apply is_array_iter; simpl; auto with arrays.
Qed.

(** The trace of a commutator vanishes. *)
Lemma trace_commutator (n : nat) (a b : nat -> nat -> R) :
  sum_upto n (fun i => sum_upto n (fun k => a i k * b k i)) =
  sum_upto n (fun i => sum_upto n (fun k => b i k * a k i)).
Proof.
  rewrite sum_upto_swap.
  apply sum_upto_ext. intros i _. apply sum_upto_ext. intros k _. ring.
Qed.

(** One step keeps the trace. *)
Lemma step_trace (n : nat) (dl : R) (H U : matrix R) :
  trace n (fst (spec_euler_step n dl (H, U))) = trace n H.
Proof.
  unfold trace.
  rewrite (sum_upto_ext n _
             (fun i => entry H i i +
                dl * (sum_upto n (fun k => entry (spec_generator n H) i k * entry H k i) -
                      sum_upto n (fun k => entry H i k * entry (spec_generator n H) k i))))
    by (intros i Hi; now apply entry_step).
  rewrite sum_upto_add, sum_upto_scal, sum_upto_sub.
  rewrite (trace_commutator n (fun i k => entry (spec_generator n H) i k)
             (fun i k => entry H i k)).
  ring.
Qed.

Lemma spec_state_trace (n : nat) (dl : R) (H : matrix R) (k : nat) :
  trace n (fst (spec_state n dl H k)) = trace n H.
Proof.
  induction k as [|k IH]; [reflexivity|].
  unfold spec_state in *. simpl Nat.iter.
  rewrite (surjective_pairing (Nat.iter k _ _)).
  now rewrite step_trace.
Qed.

End Step.

(* ================================================================= *)
(** * Diagonal Hamiltonians and the off-diagonal maximum *)

Section Diagonal.

Context {R : scalar}.
Local Open Scope scalar_scope.

Add Ring diagonal_ring : (scalar_ring R).

Lemma seqb_eq (x y : R) : seqb x y = true -> x = y.
Proof.
  unfold seqb. rewrite andb_true_iff. intros [H1 H2].
  now apply (leb_antisym R).
Qed.

Lemma is_diagonal_entry (n : nat) (A : matrix R) (i j : nat) :
  is_diagonal n A = true ->
  (i < n)%nat -> (j < n)%nat -> i <> j -> entry A i j = 0.
Proof.
  intros Hd Hi Hj Hne. unfold is_diagonal in Hd.
  rewrite forallb_forall in Hd.
  apply seqb_eq. apply (Hd (i, j)).
  apply in_offdiag_indices. simpl. auto.
Qed.

Lemma entry_mzero (n i j : nat) :
  (i < n)%nat -> (j < n)%nat -> entry (@mzero R n) i j = 0.
Proof. intros; unfold mzero; now rewrite entry_tabulate. Qed.

(** The generator of a diagonal Hamiltonian is the zero array. *)
Lemma generator_diagonal (n : nat) (A : matrix R) :
  is_diagonal n A = true -> spec_generator n A = mzero n.
Proof.
  intros Hd.
  apply (array_ext n n); [auto with arrays | apply is_array_tabulate |].
  intros i j Hi Hj. rewrite entry_generator, entry_mzero by assumption.
  destruct (Nat.eqb_spec i j) as [_|Hne]; [ring|].
  rewrite (is_diagonal_entry n A i j Hd Hi Hj Hne). ring.
Qed.

(** A diagonal Hamiltonian is a fixed point of the Euler step. *)
Lemma step_diagonal (n : nat) (dl : R) (A U : matrix R) :
  is_array n n A = true -> is_array n n U = true ->
  is_diagonal n A = true ->
  spec_euler_step n dl (A, U) = (A, U).
Proof.
  intros HA HU Hd.
  rewrite (surjective_pairing (spec_euler_step n dl (A, U))).
  f_equal.
  - apply (array_ext n n); [apply is_array_euler_step | exact HA |].
    intros i j Hi Hj. rewrite entry_step by assumption.
    rewrite (generator_diagonal n A Hd).
    rewrite (sum_upto_ext n _ (fun _ => 0))
      by (intros k Hk; rewrite entry_mzero by assumption; ring).
    rewrite (sum_upto_ext n (fun k => entry A i k * _) (fun _ => 0))
      by (intros k Hk; rewrite entry_mzero by assumption; ring).
    rewrite sum_upto_zero. ring.
  - apply (array_ext n n); [apply is_array_euler_step | exact HU |].
    intros i j Hi Hj. unfold spec_euler_step. simpl snd; simpl fst.
    rewrite (generator_diagonal n A Hd).
    rewrite entry_mtimes by assumption.
    rewrite (sum_upto_single n i).
    + rewrite entry_mplus, entry_identity, entry_mscale, entry_mzero
        by assumption.
      rewrite Nat.eqb_refl. ring.
    + assumption.
    + intros k Hk Hne.
      rewrite entry_mplus, entry_identity, entry_mscale, entry_mzero
        by assumption.
      destruct (Nat.eqb_spec i k); [congruence | ring].
Qed.

Lemma spec_state_diagonal (n : nat) (dl : R) (A : matrix R) (k : nat) :
  is_array n n A = true -> is_diagonal n A = true ->
  spec_state n dl A k = (A, identity n).
Proof.
  intros HA Hd. induction k as [|k IH]; [reflexivity|].
  unfold spec_state in *. simpl Nat.iter. rewrite IH.
  apply step_diagonal; auto with arrays.
Qed.

Lemma fold_smax_zeros (l : list R) :
  (forall y, In y l -> y = 0) -> fold_left smax l 0 = 0.
Proof.
  induction l as [|x l IH]; intros Hz; simpl; [reflexivity|].
  rewrite (Hz x) by now left.
  replace (smax 0 0) with (0 : R)
    by (unfold smax; now destruct ((0 : R) <=? 0)).
  apply IH. intros y Hy. apply Hz. now right.
Qed.

Lemma offdiag_max_diagonal (n : nat) (A : matrix R) :
  is_diagonal n A = true -> spec_offdiag_max n A = 0.
Proof.
  intros Hd. unfold spec_offdiag_max. apply fold_smax_zeros.
  intros y Hy. apply in_map_iff in Hy. destruct Hy as [[i j] [<- Hp]].
  apply in_offdiag_indices in Hp. simpl in *.
  rewrite (is_diagonal_entry n A i j Hd) by tauto.
  apply sabs_zero.
Qed.

Lemma sabs_nonneg (x : R) : (0 <=? sabs x) = true.
Proof.
  unfold sabs. destruct (0 <=? x) eqn:E; [assumption|].
  destruct (leb_total R 0 x) as [H|H]; [congruence|].
  apply (leb_add R x 0 (- x)) in H.
  replace (x + - x) with (0 : R) in H by ring.
  replace (0 + - x) with (- x) in H by ring.
  exact H.
Qed.

(** [spec_offdiag_max] bounds every off-diagonal entry in absolute value... *)
Lemma spec_offdiag_max_ub (n : nat) (A : matrix R) (i j : nat) :
  (i < n)%nat -> (j < n)%nat -> i <> j ->
  (sabs (entry A i j) <=? spec_offdiag_max n A) = true.
Proof.
  intros Hi Hj Hne. unfold spec_offdiag_max.
  apply fold_smax_ub. right.
  apply in_map_iff. exists (i, j). split; [reflexivity|].
  apply in_offdiag_indices. simpl. auto.
Qed.

(** ... and is one of them as soon as there is one. *)
Lemma spec_offdiag_max_attained (n : nat) (A : matrix R) :
  (2 <= n)%nat ->
  exists i j, (i < n)%nat /\ (j < n)%nat /\ i <> j /\
    spec_offdiag_max n A = sabs (entry A i j).
Proof.
  intros Hn.
  destruct (fold_smax_in
              (map (fun p => sabs (entry A (fst p) (snd p))) (offdiag_indices n))
              (0 : R)) as [E|Hin].
  - exists 0%nat, 1%nat. repeat split; try lia.
    apply (leb_antisym R).
    + unfold spec_offdiag_max. rewrite <- E. apply sabs_nonneg.
    + apply spec_offdiag_max_ub; lia.
  - apply in_map_iff in Hin. destruct Hin as [[i j] [E Hp]].
    apply in_offdiag_indices in Hp. simpl in *.
    exists i, j. repeat split; try tauto. now rewrite E.
Qed.

End Diagonal.

(* ================================================================= *)
(** * The properties of [flow] *)

Section Properties.

Context {R : scalar}.
Local Open Scope scalar_scope.

(** What the caller of [flow] sees after at least one step. *)
Lemma call_flow_run (n : nat) (dl : R) (A : matrix R) (k : nat) :
  is_array n n A = true -> (1 <= n)%nat ->
  call_flow A dl (S k) =
  Ok (fst (spec_state n dl A (S k)),
      spec_offdiag_max n (fst (spec_state n dl A k)),
      snd (spec_state n dl A (S k))).
Proof.
  intros HA Hn. unfold call_flow.
  rewrite (flow_run n dl [A] 0%nat A k eq_refl HA Hn). reflexivity.
Qed.

(** A diagonal Hamiltonian is returned unchanged, with [Vmax = 0] and
    [U = I], by every call with at least one step. *)
Lemma flow_diagonal_fixed_point (n : nat) (dl : R) (h : heap R) (H : loc)
    (A : matrix R) (k : nat) :
  nth_error h H = Some A -> is_array n n A = true -> (1 <= n)%nat ->
  is_diagonal n A = true ->
  spec_generator n (fst (spec_state n dl A k)) = mzero n /\
  flow H dl (S k) h = (h ++ [A], Ok (length h, 0, identity n)).
Proof.
  intros HH HA Hn Hd. split.
  - rewrite (spec_state_diagonal n dl A k HA Hd). simpl.
    now apply generator_diagonal.
  - rewrite (flow_run n dl h H A k HH HA Hn).
    rewrite !spec_state_diagonal by assumption. simpl.
    now rewrite offdiag_max_diagonal.
Qed.

(** C1.  Each iteration of [flow] is one forward-Euler step.  On an [n] by
    [n] array the body computes [H0], the diagonal part of [H2], the
    remainder [V = H2 - H0] and the generator [eta = H0.V - V.H0]; the
    iteration replaces [U] by [(I + dl.eta).U] and the object [H2] by
    [H2 + dl.(eta.H2 - H2.eta)]; and a call with [k+1] steps returns the
    result of [k+1] such steps from the input and the identity. *)
Theorem flow_forward_euler (n : nat) (dl : R) (h : heap R) (H : loc)
    (A : matrix R) :
  nth_error h H = Some A -> is_array n n A = true -> (1 <= n)%nat ->
  (forall (B U : matrix R),
      is_array n n B = true -> is_array n n U = true ->
      exists fr, loop_body n dl B U = Ok fr /\
        l_H0 fr = spec_diag_part n B /\
        l_V fr = mminus n B (l_H0 fr) /\
        l_eta fr = mminus n (mtimes n (l_H0 fr) (l_V fr))
                            (mtimes n (l_V fr) (l_H0 fr)) /\
        l_U fr = mtimes n (mplus n (identity n) (mscale n dl (l_eta fr))) U /\
        forall v,
          flow_iteration n dl (length h) (v, U) (h ++ [B]) =
          (h ++ [mplus n B (mscale n dl
                              (mminus n (mtimes n (l_eta fr) B)
                                        (mtimes n B (l_eta fr))))],
           Ok (Some (l_Vmax fr), l_U fr))) /\
  (forall k, exists v,
      flow H dl (S k) h =
      (h ++ [fst (Nat.iter (S k) (spec_euler_step n dl) (A, identity n))],
       Ok (length h, v,
           snd (Nat.iter (S k) (spec_euler_step n dl) (A, identity n))))).
Proof.
  intros HH HA Hn. split.
  - intros B U HB HU. eexists. split.
    + apply (loop_body_square n dl B U HB HU Hn).
    + simpl. repeat split.
      intros v. apply (flow_iteration_run n dl h B U v HB HU Hn).
  - intros k. eexists. apply (flow_run n dl h H A k HH HA Hn).
Qed.

(** C3.  A call with [steps = 0] does not return: the loop body never runs,
    [Vmax] is unbound at the [return], and the call raises
    [UnboundLocalError], whatever the Hamiltonian and the step size. *)
Theorem flow_zero_steps_raises (A : matrix R) (dl : R) :
  call_flow A dl 0 = Raise UnboundLocalError.
Proof. reflexivity. Qed.

(** C4, as amended.  [flow] has no divergence check: on an [n] by [n]
    Hamiltonian, [n >= 1], a call with at least one step returns normally
    also when [Vmax] increased over consecutive steps; what it returns is
    the state after the last step and the [Vmax] of the last iteration. *)
Theorem flow_returns_when_diverging (n : nat) (dl : R) (A : matrix R)
    (k : nat) :
  is_array n n A = true -> (1 <= n)%nat ->
  diverging (norms n dl A (S k)) = true ->
  reports_failure (call_flow A dl (S k)) = false /\
  call_flow A dl (S k) =
  Ok (fst (spec_state n dl A (S k)),
      last (norms n dl A (S k)) 0,
      snd (spec_state n dl A (S k))).
Proof.
  intros HA Hn _. rewrite (call_flow_run n dl A k HA Hn). split.
  - reflexivity.
  - unfold norms. rewrite seq_S, map_app. cbn [map].
    rewrite last_last. reflexivity.
Qed.

(** C5.  Symmetry is kept by the flow: for a symmetric square Hamiltonian
    the array a call returns is symmetric and has the shape of the input,
    whatever the number of steps, and on an [n] by [n] input, [n >= 1], the
    call returns after any number [k+1] of steps. *)
Theorem flow_preserves_symmetry (n : nat) (dl : R) (h : heap R) (H : loc)
    (A : matrix R) :
  nth_error h H = Some A -> is_array n n A = true -> symmetric A ->
  (forall steps h' l v U B,
      flow H dl steps h = (h', Ok (l, v, U)) -> nth_error h' l = Some B ->
      symmetric B /\ shape B = shape A) /\
  ((1 <= n)%nat ->
   forall k, exists B v U,
     flow H dl (S k) h = (h ++ [B], Ok (length h, v, U)) /\
     symmetric B /\ shape B = shape A).
Proof.
  intros HH HA Hs.
  assert (Hk : forall k,
            symmetric (fst (spec_state n dl A k)) /\
            shape (fst (spec_state n dl A k)) = shape A).
  { intros k. split.
    - now apply spec_state_symmetric.
    - rewrite (is_array_square_shape n A HA).
      apply is_array_square_shape. now apply is_array_spec_state. }
  split.
  - intros steps h' l v U B E Hl.
    destruct (flow_returns_inv n dl h h' H l A U v steps HH HA E)
      as [k [_ [_ [-> [-> _]]]]].
    rewrite nth_error_snoc in Hl. injection Hl as <-. exact (Hk (S k)).
  - intros Hn k. do 3 eexists. split.
    + apply (flow_run n dl h H A k HH HA Hn).
    + apply Hk.
Qed.

(** C6.  For a symmetric [n] by [n] Hamiltonian the generator [eta] that
    the loop body computes in iteration [k] has the shape of the
    Hamiltonian, satisfies [transpose eta = - eta], and is a function of the
    current Hamiltonian alone. *)
Theorem generator_antisymmetric (n : nat) (dl : R) (A U : matrix R)
    (k : nat) :
  is_array n n A = true -> (1 <= n)%nat -> symmetric A ->
  is_array n n U = true ->
  exists fr,
    loop_body n dl (fst (spec_state n dl A k)) U = Ok fr /\
    l_eta fr = spec_generator n (fst (spec_state n dl A k)) /\
    shape (l_eta fr) = shape (fst (spec_state n dl A k)) /\
    transpose (l_eta fr) = mopp (l_eta fr).
Proof.
  intros HA Hn Hs HU.
  destruct (is_array_spec_state n dl A k HA) as [HAk _].
  eexists. split.
  - apply (loop_body_square n dl _ U HAk HU Hn).
  - simpl. split; [reflexivity|]. split.
    + rewrite (is_array_square_shape n _ HAk).
      apply is_array_square_shape. auto with arrays.
    + apply generator_antisym; [exact HAk|].
      now apply spec_state_symmetric.
Qed.

(** C7.  [flow] works on a deep copy: every array of the caller's store,
    the argument among them, is the same after the call as before it,
    whether the call returns or raises, and the reference returned is to a
    new object. *)
Theorem flow_does_not_mutate_argument (dl : R) (steps : nat) (h : heap R)
    (H : loc) (A : matrix R) :
  nth_error h H = Some A ->
  nth_error (fst (flow H dl steps h)) H = Some A /\
  (forall l B, nth_error h l = Some B ->
               nth_error (fst (flow H dl steps h)) l = Some B) /\
  (forall h' l v U, flow H dl steps h = (h', Ok (l, v, U)) -> l = length h).
Proof.
  intros HH.
  assert (Hframe : forall l B, nth_error h l = Some B ->
            nth_error (fst (flow H dl steps h)) l = Some B).
  { intros l B Hl. destruct (flow_heap dl steps h H) as [->|[A' ->]].
    - exact Hl.
    - rewrite nth_error_app1; [exact Hl|].
      apply nth_error_Some. congruence. }
  split; [now apply Hframe|]. split; [exact Hframe|].
  intros h' l v U. unfold flow, bind at 1, deepcopy. rewrite HH.
  unfold bind at 1, load. rewrite nth_error_snoc. unfold bind.
  destruct (for_range steps _ _ _) as [h1 [[[w|] U1]|e]]; simpl;
    unfold ret, raise; intros E; inversion E; reflexivity.
Qed.

(** C9.  The trace is conserved: whenever [flow] returns on a square
    array, whatever the number of steps, the diagonal of the returned
    Hamiltonian has the same sum as the diagonal of the input; and on an [n]
    by [n] input, [n >= 1], it returns after any number [k+1] of steps. *)
Theorem flow_conserves_trace (n : nat) (dl : R) (h : heap R) (H : loc)
    (A : matrix R) :
  nth_error h H = Some A -> is_array n n A = true ->
  (forall steps h' l v U B,
      flow H dl steps h = (h', Ok (l, v, U)) -> nth_error h' l = Some B ->
      trace n B = trace n A) /\
  ((1 <= n)%nat ->
   forall k, exists B v U,
     flow H dl (S k) h = (h ++ [B], Ok (length h, v, U)) /\
     trace n B = trace n A).
Proof.
  intros HH HA. split.
  - intros steps h' l v U B E Hl.
    destruct (flow_returns_inv n dl h h' H l A U v steps HH HA E)
      as [k [_ [_ [-> [-> _]]]]].
    rewrite nth_error_snoc in Hl. injection Hl as <-.
    exact (spec_state_trace n dl A (S k)).
  - intros Hn k. do 3 eexists. split.
    + apply (flow_run n dl h H A k HH HA Hn).
    + apply spec_state_trace.
Qed.

End Properties.

(* ================================================================= *)
(** * Concrete runs *)

Section ConcreteRuns.

Import Runs.
Local Open Scope Z_scope.

(** C2.  On the diagonal Hamiltonian [H_diag] a call with one step returns
    the input, [Vmax = 0] and the identity, but a call with [steps = 0]
    raises [UnboundLocalError] instead of returning them. *)
Theorem flow_diagonal_zero_steps :
  is_diagonal 2 H_diag = true /\
  call_flow H_diag (1 : Zscalar) 1 = Ok (H_diag, 0, identity 2) /\
  call_flow H_diag (1 : Zscalar) 0 = Raise UnboundLocalError.
Proof. repeat split. Qed.

(** C4, as stated, fails: on [H_wide] with [dl = 1] the off-diagonal
    maximum goes 1, 3, 297 in three steps, and the call returns normally. *)
Lemma flow_diverges_silently :
  ~ (forall (n : nat) (A : matrix Zscalar) (dl : Zscalar) (steps : nat),
       is_array n n A = true ->
       diverging (norms n dl A steps) = true ->
       reports_failure (call_flow A dl steps) = true).
Proof.
  intros C. specialize (C 2%nat H_wide 1 3%nat eq_refl eq_refl).
  vm_compute in C. discriminate C.
Qed.

(** The run behind the counterexample. *)
Example flow_wide_three_steps :
  norms 2 (1 : Zscalar) H_wide 3 = [1; 3; 297] /\
  call_flow H_wide (1 : Zscalar) 3 =
  Ok ([[65274846; -40659003]; [-40659003; -65274844]], 297,
      [[3076981; 6703262]; [-6703262; 3076981]]).
Proof. split; vm_compute; reflexivity. Qed.

(** The returned [Vmax] alone does not tell the two cases apart: [H_near]
    is diagonalized by its single step and [H_wide] diverges, and both calls
    return [Vmax = 297]. *)
Example vmax_does_not_tell_divergence :
  call_flow H_near (1 : Zscalar) 1 =
  Ok ([[176419; 0]; [0; -176418]], 297, [[1; 297]; [-297; 1]]) /\
  exists B U, call_flow H_wide (1 : Zscalar) 3 = Ok (B, 297, U).
Proof.
  split; [vm_compute; reflexivity|].
  do 2 eexists. vm_compute. reflexivity.
Qed.

(** The in-place update is visible in the store: after two steps the object
    [H2] holds the flowed Hamiltonian, and the caller's array is untouched. *)
Example flow_wide_store :
  flow 0%nat (1 : Zscalar) 2 [H_wide] =
  ([H_wide; [[186; 297]; [297; -184]]],
   Ok (1%nat, 3, [[61; -28]; [28; 61]])).
Proof. vm_compute. reflexivity. Qed.

(** [flow] raises [ValueError] on an array that is empty or not square:
    [np.max] of an empty array, and a [reshape] to the wrong size. *)
Example flow_empty_or_not_square :
  call_flow ([] : matrix Zscalar) (1 : Zscalar) 1 = Raise ValueError /\
  call_flow ([[1; 2; 3]] : matrix Zscalar) (1 : Zscalar) 1 = Raise ValueError.
Proof. split; reflexivity. Qed.

(** The notebook's 4-site chain in exact arithmetic: whatever the number
    [k+1] of steps of size [10**(-3)], [100000] included, the call returns a
    symmetric 4 by 4 Hamiltonian whose diagonal sums to [2.952], the sum of
    the on-site energies; the first iteration measures [Vmax = 1]. *)
Example chain_flow_invariants (k : nat) :
  exists B v U,
    flow 0%nat dl_default (S k) [H_chain] = ([H_chain; B], Ok (1%nat, v, U)) /\
    symmetric B /\ shape B = (4%nat, 4%nat) /\ trace 4 B = dec 2952.
Proof.
  assert (Hn : (1 <= 4)%nat) by lia.
  assert (HA : is_array 4 4 H_chain = true) by reflexivity.
  do 3 eexists. split; [|split; [|split]].
  - apply (flow_run 4 dl_default [H_chain] 0%nat H_chain k eq_refl HA Hn).
  - apply spec_state_symmetric; [exact HA | reflexivity].
  - apply is_array_square_shape. now apply is_array_spec_state.
  - rewrite spec_state_trace. apply Qc_is_canon. reflexivity.
Qed.

Example chain_first_vmax :
  exists B U, call_flow H_chain dl_default 1 = Ok (B, dec 1000, U).
Proof.
  rewrite (call_flow_run 4 dl_default H_chain 0 eq_refl
             (le_S _ _ (le_S _ _ (le_S _ _ (le_n 1))))).
  do 2 eexists. reflexivity.
Qed.

End ConcreteRuns.

(** C10.  For [k+1] steps the [Vmax] that [flow] returns is the largest
    absolute off-diagonal entry of the Hamiltonian after [k] steps, the one
    the last iteration starts from: it bounds every [|H[i,j]|], [i <> j], of
    that Hamiltonian and is one of them when [n >= 2].  It is not the
    maximum of the returned Hamiltonian: on [H_wide] one step returns
    [Vmax = 1] with a Hamiltonian whose off-diagonal maximum is 3. *)
Theorem flow_vmax_lags_one_step :
  (forall (R : scalar) (n : nat) (dl : R) (h : heap R) (H : loc)
          (A : matrix R) (k : nat),
      nth_error h H = Some A -> is_array n n A = true -> (1 <= n)%nat ->
      exists v,
        flow H dl (S k) h =
        (h ++ [fst (spec_state n dl A (S k))],
         Ok (length h, v, snd (spec_state n dl A (S k)))) /\
        v = spec_offdiag_max n (fst (spec_state n dl A k)) /\
        (forall i j, (i < n)%nat -> (j < n)%nat -> i <> j ->
           leb (sabs (entry (fst (spec_state n dl A k)) i j)) v = true) /\
        ((2 <= n)%nat ->
         exists i j, (i < n)%nat /\ (j < n)%nat /\ i <> j /\
           v = sabs (entry (fst (spec_state n dl A k)) i j))) /\
  (call_flow Runs.H_wide (1%Z : Zscalar) 1 =
   Ok ([[6; -3]; [-3; -4]], 1, [[1; 2]; [-2; 1]])%Z /\
   @spec_offdiag_max Zscalar 2 [[6; -3]; [-3; -4]]%Z = 3%Z).
Proof.
  split.
  - intros R n dl h H A k HH HA Hn. eexists. split; [|split; [|split]].
    + apply (flow_run n dl h H A k HH HA Hn).
    + reflexivity.
    + intros i j Hi Hj Hne. now apply spec_offdiag_max_ub.
    + intros Hn2. now apply spec_offdiag_max_attained.
  - split; vm_compute; reflexivity.
Qed.

(* ================================================================= *)
(** * The theorems at concrete inputs *)

Lemma flow_forward_euler_witness :
  exists v,
    flow 0%nat (1%Z : Zscalar) 2 [Runs.H_wide] =
    ([Runs.H_wide] ++
       [fst (Nat.iter 2 (spec_euler_step 2 (1%Z : Zscalar))
               (Runs.H_wide, identity 2))],
     Ok (length [Runs.H_wide], v,
         snd (Nat.iter 2 (spec_euler_step 2 (1%Z : Zscalar))
                (Runs.H_wide, identity 2)))).
Proof.
  apply (@flow_forward_euler Zscalar 2 1%Z [Runs.H_wide] 0%nat Runs.H_wide);
    try reflexivity.
  lia.
Defined.

Lemma flow_returns_when_diverging_witness :
  diverging (norms 2 (1%Z : Zscalar) Runs.H_wide 3) = true /\
  reports_failure (call_flow Runs.H_wide (1%Z : Zscalar) 3) = false.
Proof.
  split; [reflexivity|].
  apply (@flow_returns_when_diverging Zscalar 2 1%Z Runs.H_wide 2);
    try reflexivity.
  lia.
Defined.

Lemma flow_preserves_symmetry_witness :
  symmetric Runs.H_wide /\
  exists B v U,
    flow 0%nat (1%Z : Zscalar) 3 [Runs.H_wide] =
    ([Runs.H_wide] ++ [B], Ok (length [Runs.H_wide], v, U)) /\
    symmetric B /\ shape B = shape Runs.H_wide.
Proof.
  split; [reflexivity|].
  apply (proj2 (@flow_preserves_symmetry Zscalar 2 1%Z [Runs.H_wide] 0%nat
                  Runs.H_wide eq_refl eq_refl eq_refl)).
  lia.
Defined.

Lemma generator_antisymmetric_witness :
  symmetric Runs.H_wide /\
  exists fr,
    loop_body 2 (1%Z : Zscalar)
      (fst (spec_state 2 (1%Z : Zscalar) Runs.H_wide 1)) (identity 2) = Ok fr /\
    l_eta fr = spec_generator 2 (fst (spec_state 2 (1%Z : Zscalar) Runs.H_wide 1)) /\
    shape (l_eta fr) = shape (fst (spec_state 2 (1%Z : Zscalar) Runs.H_wide 1)) /\
    transpose (l_eta fr) = mopp (l_eta fr).
Proof.
  split; [reflexivity|].
  apply (@generator_antisymmetric Zscalar 2 1%Z Runs.H_wide (identity 2) 1);
    try reflexivity.
  lia.
Defined.

Lemma flow_does_not_mutate_argument_witness :
  nth_error (fst (flow 0%nat (1%Z : Zscalar) 3 [Runs.H_wide])) 0 =
  Some Runs.H_wide.
Proof.
  exact (proj1 (@flow_does_not_mutate_argument Zscalar 1%Z 3 [Runs.H_wide]
                  0%nat Runs.H_wide eq_refl)).
Defined.

Lemma flow_conserves_trace_witness :
  exists B v U,
    flow 0%nat (1%Z : Zscalar) 3 [Runs.H_wide] =
    ([Runs.H_wide] ++ [B], Ok (length [Runs.H_wide], v, U)) /\
    trace 2 B = trace 2 Runs.H_wide.
Proof.
  apply (proj2 (@flow_conserves_trace Zscalar 2 1%Z [Runs.H_wide] 0%nat
                  Runs.H_wide eq_refl eq_refl)).
  lia.
Defined.

Lemma flow_vmax_lags_one_step_witness :
  exists v,
    flow 0%nat (1%Z : Zscalar) 3 [Runs.H_wide] =
    ([Runs.H_wide] ++ [fst (spec_state 2 (1%Z : Zscalar) Runs.H_wide 3)],
     Ok (length [Runs.H_wide], v,
         snd (spec_state 2 (1%Z : Zscalar) Runs.H_wide 3))) /\
    v = spec_offdiag_max 2 (fst (spec_state 2 (1%Z : Zscalar) Runs.H_wide 2)).
Proof.
  destruct (proj1 flow_vmax_lags_one_step Zscalar 2%nat 1%Z [Runs.H_wide]
              0%nat Runs.H_wide 2%nat eq_refl eq_refl (le_S _ _ (le_n 1)))
    as [v [Hrun [Hv _]]].
  exists v. split; assumption.
Defined.

(* ================================================================= *)
(** * Laws of the flow *)

Section FlowLaws.

Context {R : scalar}.
Local Open Scope scalar_scope.

Add Ring laws_ring : (scalar_ring R).

Lemma sum_upto_scal_r (n : nat) (c : R) (f : nat -> R) :
  sum_upto n (fun i => f i * c) = sum_upto n f * c.
Proof. induction n as [|n IH]; simpl; [ring | rewrite IH; ring]. Qed.

Lemma mtimes_assoc (n : nat) (A B C : matrix R) :
  mtimes n (mtimes n A B) C = mtimes n A (mtimes n B C).
Proof.
  unfold mtimes at 1 3. apply tabulate_ext. intros i j Hi Hj.
  rewrite (sum_upto_ext n _
             (fun l => sum_upto n
                         (fun k => entry A i k * entry B k l * entry C l j)))
    by (intros l Hl; rewrite entry_mtimes by assumption;
        now rewrite sum_upto_scal_r).
  rewrite sum_upto_swap. apply sum_upto_ext. intros k Hk.
  rewrite entry_mtimes by assumption. rewrite <- sum_upto_scal.
  apply sum_upto_ext. intros l _. ring.
Qed.

Lemma mtimes_identity_l (n : nat) (A : matrix R) :
  is_array n n A = true -> mtimes n (identity n) A = A.
Proof.
  intros HA. apply (array_ext n n); [auto with arrays | exact HA |].
  intros i j Hi Hj. rewrite entry_mtimes by assumption.
  rewrite (sum_upto_single n i).
  - rewrite entry_identity, Nat.eqb_refl by assumption. ring.
  - assumption.
  - intros k Hk Hne. rewrite entry_identity by assumption.
    destruct (Nat.eqb_spec i k); [congruence | ring].
Qed.

(** The Hamiltonian after [k] steps does not depend on the [U] the steps
    start from, ... *)
Lemma iter_fst_indep (n : nat) (dl : R) (k : nat) (A U U' : matrix R) :
  fst (Nat.iter k (spec_euler_step n dl) (A, U)) =
  fst (Nat.iter k (spec_euler_step n dl) (A, U')).
Proof.
  induction k as [|k IH]; [reflexivity|].
  simpl. now rewrite IH.
Qed.

(** ... and the [U] after [k] steps is the [U] obtained from the identity,
    times the [U] the steps start from. *)
Lemma iter_snd_factor (n : nat) (dl : R) (k : nat) (A U : matrix R) :
  is_array n n U = true ->
  snd (Nat.iter k (spec_euler_step n dl) (A, U)) =
  mtimes n (snd (Nat.iter k (spec_euler_step n dl) (A, identity n))) U.
Proof.
  intros HU. induction k as [|k IH].
  - simpl. now rewrite mtimes_identity_l.
  - simpl. rewrite IH, mtimes_assoc.
    now rewrite (iter_fst_indep n dl k A U (identity n)).
Qed.

Lemma spec_state_add (n : nat) (dl : R) (A : matrix R) (k1 k2 : nat) :
  is_array n n A = true ->
  spec_state n dl A (k2 + k1) =
  (fst (spec_state n dl (fst (spec_state n dl A k1)) k2),
   mtimes n (snd (spec_state n dl (fst (spec_state n dl A k1)) k2))
            (snd (spec_state n dl A k1))).
Proof.
  intros HA. unfold spec_state at 1. rewrite Nat.iter_add.
  fold (spec_state n dl A k1).
  rewrite (surjective_pairing (spec_state n dl A k1)) at 1.
  rewrite (surjective_pairing (Nat.iter k2 _ _)). f_equal.
  - apply iter_fst_indep.
  - apply iter_snd_factor. now apply is_array_spec_state.
Qed.

(** X1.  In exact arithmetic, calls compose: running [k1+1] steps and then
    [k2+1] steps on the returned Hamiltonian returns the Hamiltonian and the
    [Vmax] of a single call with [k1+k2+2] steps, whose [U] is the product
    [U2 @ U1] of the two unitaries. *)
Theorem flow_calls_compose (n : nat) (dl : R) (A : matrix R) (k1 k2 : nat) :
  is_array n n A = true -> (1 <= n)%nat ->
  exists H1 v1 U1 H2 v2 U2 U21,
    call_flow A dl (S k1) = Ok (H1, v1, U1) /\
    call_flow H1 dl (S k2) = Ok (H2, v2, U2) /\
    matmul U2 U1 = Ok U21 /\
    call_flow A dl (S k2 + S k1) = Ok (H2, v2, U21).
Proof.
  intros HA Hn.
  destruct (is_array_spec_state n dl A (S k1) HA) as [HH1 HU1].
  destruct (is_array_spec_state n dl (fst (spec_state n dl A (S k1))) (S k2) HH1)
    as [_ HU2].
  do 7 eexists. split; [|split; [|split]].
  - apply (call_flow_run n dl A k1 HA Hn).
  - apply (call_flow_run n dl _ k2 HH1 Hn).
  - apply (matmul_square n _ _ HU2 HU1).
  - change (S k2 + S k1)%nat with (S (k2 + S k1)).
    rewrite (call_flow_run n dl A (k2 + S k1) HA Hn).
    change (S (k2 + S k1)) with (S k2 + S k1)%nat.
    rewrite !(spec_state_add n dl A (S k1)) by assumption.
    reflexivity.
Qed.




(** The Hamiltonian shifted by [c] on its diagonal. *)
Lemma entry_shift (n : nat) (c : R) (A : matrix R) (i j : nat) :
  (i < n)%nat -> (j < n)%nat ->
  entry (mplus n A (mscale n c (identity n))) i j =
  entry A i j + (if (i =? j)%nat then c else 0).
Proof.
  intros Hi Hj.
  rewrite entry_mplus, entry_mscale, entry_identity by assumption.
  destruct (i =? j)%nat; ring.
Qed.

Lemma generator_shift (n : nat) (c : R) (A : matrix R) :
  spec_generator n (mplus n A (mscale n c (identity n))) = spec_generator n A.
Proof.
  apply (array_ext n n); auto with arrays.
  intros i j Hi Hj. rewrite !entry_generator, !entry_shift by assumption.
  rewrite !Nat.eqb_refl. destruct (i =? j)%nat; ring.
Qed.

Lemma step_shift (n : nat) (dl c : R) (A U : matrix R) :
  spec_euler_step n dl (mplus n A (mscale n c (identity n)), U) =
  (mplus n (fst (spec_euler_step n dl (A, U))) (mscale n c (identity n)),
   snd (spec_euler_step n dl (A, U))).
Proof.
  rewrite (surjective_pairing (spec_euler_step n dl (mplus n A _, U))).
  f_equal.
  - apply (array_ext n n); [apply is_array_euler_step | auto with arrays |].
    intros i j Hi Hj. rewrite entry_shift, !entry_step by assumption.
    rewrite generator_shift.
    rewrite (sum_upto_ext n
               (fun k => entry (spec_generator n A) i k *
                         entry (mplus n A (mscale n c (identity n))) k j)
               (fun k => entry (spec_generator n A) i k * entry A k j +
                         entry (spec_generator n A) i k *
                         (if (k =? j)%nat then c else 0)))
      by (intros k Hk; rewrite entry_shift by assumption; ring).
    rewrite (sum_upto_ext n
               (fun k => entry (mplus n A (mscale n c (identity n))) i k *
                         entry (spec_generator n A) k j)
               (fun k => entry A i k * entry (spec_generator n A) k j +
                         (if (i =? k)%nat then c else 0) *
                         entry (spec_generator n A) k j))
      by (intros k Hk; rewrite entry_shift by assumption; ring).
    rewrite !sum_upto_add.
    rewrite (sum_upto_single n j
               (fun k => entry (spec_generator n A) i k *
                         (if (k =? j)%nat then c else 0)))
      by first [ assumption
               | intros k Hk Hne; destruct (Nat.eqb_spec k j);
                 [congruence | ring] ].
    rewrite (sum_upto_single n i
               (fun k => (if (i =? k)%nat then c else 0) *
                         entry (spec_generator n A) k j))
      by first [ assumption
               | intros k Hk Hne; destruct (Nat.eqb_spec i k);
                 [congruence | ring] ].
    rewrite entry_shift, !Nat.eqb_refl by assumption.
    destruct (i =? j)%nat; ring.
  - unfold spec_euler_step. simpl snd; simpl fst. now rewrite generator_shift.
Qed.

Lemma spec_state_shift (n : nat) (dl c : R) (A : matrix R) (k : nat) :
  spec_state n dl (mplus n A (mscale n c (identity n))) k =
  (mplus n (fst (spec_state n dl A k)) (mscale n c (identity n)),
   snd (spec_state n dl A k)).
Proof.
  induction k as [|k IH]; [reflexivity|].
  unfold spec_state in *. simpl Nat.iter. rewrite IH, step_shift.
  now rewrite <- surjective_pairing.
Qed.

Lemma offdiag_max_ext (n : nat) (A B : matrix R) :
  (forall i j, (i < n)%nat -> (j < n)%nat -> i <> j ->
               entry A i j = entry B i j) ->
  spec_offdiag_max n A = spec_offdiag_max n B.
Proof.
  intros Heq. unfold spec_offdiag_max. f_equal.
  apply map_ext_in. intros [i j] Hp. apply in_offdiag_indices in Hp.
  simpl in *. rewrite Heq by tauto. reflexivity.
Qed.

Lemma offdiag_max_shift (n : nat) (c : R) (A : matrix R) :
  spec_offdiag_max n (mplus n A (mscale n c (identity n))) =
  spec_offdiag_max n A.
Proof.
  apply offdiag_max_ext. intros i j Hi Hj Hne.
  rewrite entry_shift by assumption.
  destruct (Nat.eqb_spec i j); [congruence | ring].
Qed.

(** X3.  In exact arithmetic, an energy offset commutes with the flow: on
    [H + c*np.identity(n)] a call returns the Hamiltonian it returns on [H],
    shifted by the same offset, with the same [Vmax] and the same [U]. *)
Theorem flow_energy_shift (n : nat) (dl c : R) (A : matrix R) (k : nat) :
  is_array n n A = true -> (1 <= n)%nat ->
  exists Ac B v U Bc,
    madd A (scale c (identity n)) = Ok Ac /\
    call_flow A dl (S k) = Ok (B, v, U) /\
    madd B (scale c (identity n)) = Ok Bc /\
    call_flow Ac dl (S k) = Ok (Bc, v, U).
Proof.
  intros HA Hn.
  destruct (is_array_spec_state n dl A (S k) HA) as [HB _].
  do 5 eexists. split; [|split; [|split]].
  - rewrite (scale_square n) by auto with arrays.
    apply (madd_square n); auto with arrays.
  - apply (call_flow_run n dl A k HA Hn).
  - rewrite (scale_square n) by auto with arrays.
    apply (madd_square n); auto with arrays.
  - rewrite (call_flow_run n dl _ k (is_array_mplus n _ _) Hn).
    rewrite !spec_state_shift. simpl fst; simpl snd.
    now rewrite offdiag_max_shift.
Qed.





Lemma shape_tabulate_square (k : nat) (f : nat -> nat -> R) :
  shape (tabulate k k f) = (k, k).
Proof. apply is_array_square_shape, is_array_tabulate. Qed.

(** On an array that is not square the first subtraction of the loop body
    raises. *)
Lemma loop_body_not_square (n m n' : nat) (dl : R) (A U : matrix R) :
  is_array n m A = true -> (1 <= n)%nat -> n <> m ->
  loop_body n' dl A U = Raise ValueError.
Proof.
  intros HA Hn Hne. unfold loop_body, msub, elementwise, np_diag_mat.
  rewrite shape_tabulate_square.
  unfold np_diag_vec. rewrite length_map, length_seq.
  rewrite (is_array_shape n m A HA Hn). unfold shape_eqb. simpl fst; simpl snd.
  destruct (Nat.eqb_spec n (Nat.min n m)) as [E1|_]; [|reflexivity].
  destruct (Nat.eqb_spec m (Nat.min n m)) as [E2|_]; [|reflexivity].
  exfalso. congruence.
Qed.

(** X5.  On an array that is empty or not square a call with at least one
    step raises [ValueError] in its first iteration; the caller's store only
    gains the deep copy. *)
Theorem flow_not_square_raises (n m : nat) (dl : R) (h : heap R) (H : loc)
    (A : matrix R) (k : nat) :
  nth_error h H = Some A -> is_array n m A = true -> n <> m \/ n = 0%nat ->
  flow H dl (S k) h = (h ++ [A], Raise ValueError).
Proof.
  intros HH HA Hne. destruct n as [|n].
  - apply is_array_spec in HA. destruct HA as [Hlen _].
    destruct A; [|discriminate]. now apply flow_run_empty.
  - assert (Hn : (1 <= S n)%nat) by lia.
    assert (Hne' : S n <> m) by (destruct Hne; [assumption | discriminate]).
    unfold flow, bind at 1, deepcopy. rewrite HH.
    unfold bind at 1, load. rewrite nth_error_snoc.
    cbn [for_range]. unfold bind, flow_iteration, bind, load, lift.
    rewrite nth_error_snoc.
    now rewrite (loop_body_not_square (S n) m _ dl A _ HA Hn Hne').
Qed.

Lemma smax_zero_sabs (x : R) : smax (smax 0 (sabs x)) (sabs x) = sabs x.
Proof.
  unfold smax at 2. rewrite sabs_nonneg.
  unfold smax. now rewrite leb_refl.
Qed.

(** X6.  One step on a symmetric 2 by 2 Hamiltonian, in exact arithmetic
    and in closed form: the coupling [b] is multiplied by
    [1 - dl*(a-d)**2], the levels move apart by [2*dl*b**2*(a-d)], [Vmax] is
    [|b|] and [U] is the rotation generator
    [I + dl*b*(a-d)*[[0,1],[-1,0]]]. *)
Theorem flow_two_by_two (a b d dl : R) :
  call_flow [[a; b]; [b; d]] dl 1 =
  Ok ([[a + (1 + 1) * dl * (b * b) * (a - d); b * (1 - dl * ((a - d) * (a - d)))];
       [b * (1 - dl * ((a - d) * (a - d))); d - (1 + 1) * dl * (b * b) * (a - d)]],
      sabs b,
      [[1; dl * (b * (a - d))]; [- (dl * (b * (a - d))); 1]]).
Proof.
  rewrite (call_flow_run 2 dl [[a; b]; [b; d]] 0 eq_refl (le_S _ _ (le_n 1))).
  f_equal. f_equal; [f_equal|].
  - cbv -[add mul sub opp zero one]. repeat (f_equal; try ring).
  - cbv -[add mul sub opp zero one smax sabs]. apply smax_zero_sabs.
  - cbv -[add mul sub opp zero one]. repeat (f_equal; try ring).
Qed.

End FlowLaws.

(* ================================================================= *)
(** * The transformation [U] and the reconstruction [U@H@(U.T)] *)

Section Reconstruction.

Context {R : scalar}.
Local Open Scope scalar_scope.

Add Ring reconstruction_ring : (scalar_ring R).

Lemma sum_delta_l (n i : nat) (x : R) (f : nat -> R) :
  (i < n)%nat ->
  sum_upto n (fun k => (if (i =? k)%nat then x else 0) * f k) = x * f i.
Proof.
  intros Hi. rewrite (sum_upto_single n i).
  - now rewrite Nat.eqb_refl.
  - assumption.
  - intros k Hk Hne. destruct (Nat.eqb_spec i k); [congruence | ring].
Qed.

Lemma sum_delta_r (n j : nat) (x : R) (f : nat -> R) :
  (j < n)%nat ->
  sum_upto n (fun k => f k * (if (j =? k)%nat then x else 0)) = f j * x.
Proof.
  intros Hj. rewrite (sum_upto_single n j).
  - now rewrite Nat.eqb_refl.
  - assumption.
  - intros k Hk Hne. destruct (Nat.eqb_spec j k); [congruence | ring].
Qed.

Lemma mtimes_identity_r (n : nat) (A : matrix R) :
  is_array n n A = true -> mtimes n A (identity n) = A.
Proof.
  intros HA. apply (array_ext n n); [auto with arrays | exact HA |].
  intros i j Hi Hj. rewrite entry_mtimes by assumption.
  rewrite (sum_upto_ext n _
             (fun k => entry A i k * (if (j =? k)%nat then 1 else 0)))
    by (intros k Hk; rewrite entry_identity, (Nat.eqb_sym k j) by assumption;
        reflexivity).
  rewrite sum_delta_r by assumption. ring.
Qed.

Lemma entry_transpose (n : nat) (A : matrix R) (i j : nat) :
  is_array n n A = true -> (i < n)%nat -> (j < n)%nat ->
  entry (transpose A) i j = entry A j i.
Proof.
  intros HA Hi Hj. rewrite (shape_transpose_square n A HA).
  now rewrite entry_tabulate.
Qed.

Lemma is_array_transpose (n : nat) (A : matrix R) :
  is_array n n A = true -> is_array n n (transpose A) = true.
Proof.
  intros HA. rewrite (shape_transpose_square n A HA).
  apply is_array_tabulate.
Qed.

(** The [U] of the first step is [I + dl*eta]. *)
Lemma first_step_U (n : nat) (dl : R) (A : matrix R) :
  snd (spec_state n dl A 1) =
  mplus n (identity n) (mscale n dl (spec_generator n A)).
Proof.
  unfold spec_state, spec_euler_step. simpl.
  apply mtimes_identity_r. auto with arrays.
Qed.

Lemma entry_first_step_U (n : nat) (dl : R) (E : matrix R) (i k : nat) :
  (i < n)%nat -> (k < n)%nat ->
  entry (mplus n (identity n) (mscale n dl E)) i k =
  (if (i =? k)%nat then 1 else 0) + dl * entry E i k.
Proof.
  intros Hi Hk. now rewrite entry_mplus, entry_identity, entry_mscale.
Qed.

(** X7.  In exact arithmetic the Euler step does not keep [U] orthogonal:
    for a symmetric Hamiltonian the [U] returned after one step satisfies
    [U @ U.T = I + dl**2 * (eta @ eta.T)], with [eta] the generator of the
    input. *)
Theorem flow_first_step_orthogonality (n : nat) (dl : R) (A : matrix R) :
  is_array n n A = true -> (1 <= n)%nat -> symmetric A ->
  exists B v U,
    call_flow A dl 1 = Ok (B, v, U) /\
    matmul U (transpose U) =
    Ok (mplus n (identity n)
          (mscale n (dl * dl)
             (mtimes n (spec_generator n A) (transpose (spec_generator n A))))).
Proof.
  intros HA Hn Hs. do 3 eexists.
  split; [apply (call_flow_run n dl A 0 HA Hn)|].
  rewrite first_step_U.
  set (eta := spec_generator n A).
  set (T := mplus n (identity n) (mscale n dl eta)).
  assert (HT : is_array n n T = true) by (unfold T; auto with arrays).
  assert (Heta : is_array n n eta = true) by (unfold eta; auto with arrays).
  rewrite (matmul_square n T (transpose T) HT (is_array_transpose n T HT)).
  f_equal. apply (array_ext n n); auto with arrays.
  intros i j Hi Hj.
  rewrite entry_mtimes, entry_mplus, entry_identity, entry_mscale,
    entry_mtimes by assumption.
  rewrite (sum_upto_ext n
             (fun k => entry T i k * entry (transpose T) k j)
             (fun k => (if (i =? k)%nat then 1 else 0) * entry T j k +
                       (dl * entry eta i k) * (if (j =? k)%nat then 1 else 0) +
                       dl * dl * (entry eta i k * entry (transpose eta) k j))).
  2:{ intros k Hk. rewrite !(entry_transpose n) by assumption.
      unfold T. rewrite !entry_first_step_U by assumption. fold eta. ring. }
  rewrite !sum_upto_add, sum_delta_l, sum_delta_r, sum_upto_scal by assumption.
  unfold T. rewrite entry_first_step_U by assumption. fold eta.
  unfold eta at 1 2.
  rewrite (generator_antisym_entry n A i j HA Hs Hi Hj). fold eta.
  rewrite (Nat.eqb_sym j i). ring.
Qed.

(** On [n] by [n] arrays the reconstruction does not raise. *)
Lemma reconstruct_square (n : nat) (U H : matrix R) :
  is_array n n U = true -> is_array n n H = true ->
  reconstruct U H = Ok (mtimes n (mtimes n U H) (transpose U)).
Proof.
  intros HU HH. unfold reconstruct.
  rewrite (matmul_square n U H HU HH). simpl rbind.
  apply matmul_square; [auto with arrays | now apply is_array_transpose].
Qed.

Lemma entry_reconstruct (n : nat) (U H : matrix R) (i j : nat) :
  is_array n n U = true -> (i < n)%nat -> (j < n)%nat ->
  entry (mtimes n (mtimes n U H) (transpose U)) i j =
  sum_upto n (fun l => sum_upto n
                (fun k => entry U i k * entry H k l * entry U j l)).
Proof.
  intros HU Hi Hj. rewrite entry_mtimes by assumption.
  apply sum_upto_ext. intros l Hl.
  rewrite entry_mtimes, (entry_transpose n) by assumption.
  now rewrite sum_upto_scal_r.
Qed.

(** X8.  In exact arithmetic, for a symmetric [n] by [n] Hamiltonian and
    any [n] by [n] array [U], [U@H@(U.T)] is a symmetric [n] by [n]
    array. *)
Theorem reconstruct_symmetric (n : nat) (U H : matrix R) :
  is_array n n U = true -> is_array n n H = true -> symmetric H ->
  exists B, reconstruct U H = Ok B /\ is_array n n B = true /\ symmetric B.
Proof.
  intros HU HH Hs. eexists. split; [apply (reconstruct_square n U H HU HH)|].
  split; [auto with arrays|].
  apply (symmetric_intro n); [auto with arrays|].
  intros i j Hi Hj. rewrite !entry_reconstruct by assumption.
  rewrite sum_upto_swap. apply sum_upto_ext. intros l Hl.
  apply sum_upto_ext. intros k Hk.
  rewrite (symmetric_entry n H l k HH Hs Hl Hk). ring.
Qed.

(** X9.  In exact arithmetic, after one step the reconstruction and the
    flowed Hamiltonian differ at second order in the step: for a symmetric
    Hamiltonian, [U@H@(U.T) = H1 - dl**2 * (eta@H@eta)], with [H1] and [U]
    what [flow] returns after one step and [eta] the generator of the
    input. *)
Theorem reconstruct_first_step (n : nat) (dl : R) (A : matrix R) :
  is_array n n A = true -> (1 <= n)%nat -> symmetric A ->
  exists B v U,
    call_flow A dl 1 = Ok (B, v, U) /\
    reconstruct U A =
    Ok (mminus n B
          (mscale n (dl * dl)
             (mtimes n (mtimes n (spec_generator n A) A) (spec_generator n A)))).
Proof.
  intros HA Hn Hs. do 3 eexists.
  split; [apply (call_flow_run n dl A 0 HA Hn)|].
  rewrite first_step_U.
  set (eta := spec_generator n A).
  set (T := mplus n (identity n) (mscale n dl eta)).
  assert (HT : is_array n n T = true) by (unfold T; auto with arrays).
  rewrite (reconstruct_square n T A HT HA).
  f_equal. apply (array_ext n n); auto with arrays.
  intros i j Hi Hj.
  rewrite entry_mminus, entry_mscale, !entry_mtimes by assumption.
  change (spec_state n dl A 1) with (spec_euler_step n dl (A, identity n)).
  rewrite entry_step by assumption. fold eta.
  rewrite (sum_upto_ext n
             (fun l => entry (mtimes n T A) i l * entry (transpose T) l j)
             (fun l => (entry A i l + dl * entry (mtimes n eta A) i l) *
                       (if (j =? l)%nat then 1 else 0) -
                       dl * (entry A i l * entry eta l j) -
                       dl * dl * (entry (mtimes n eta A) i l * entry eta l j))).
  2:{ intros l Hl. rewrite (entry_transpose n) by assumption.
      unfold T at 2. rewrite entry_first_step_U by assumption. fold eta.
      unfold eta at 1.
      rewrite (generator_antisym_entry n A l j HA Hs Hl Hj). fold eta.
      assert (E : entry (mtimes n T A) i l =
                  entry A i l + dl * entry (mtimes n eta A) i l).
      { rewrite !entry_mtimes by assumption.
        rewrite (sum_upto_ext n
                   (fun k => entry T i k * entry A k l)
                   (fun k => (if (i =? k)%nat then 1 else 0) * entry A k l +
                             dl * (entry eta i k * entry A k l)))
          by (intros k Hk; unfold T; rewrite entry_first_step_U by assumption;
              fold eta; ring).
        rewrite sum_upto_add, sum_delta_l, sum_upto_scal by assumption. ring. }
      rewrite E. ring. }
  rewrite !sum_upto_sub, sum_delta_r, !sum_upto_scal by assumption.
  rewrite entry_mtimes by assumption.
  ring.
Qed.

End Reconstruction.

(* ================================================================= *)
(** * Item assignment *)

Lemma set_nth_length {A : Type} (l l' : list A) (i : nat) (x : A) :
  set_nth l i x = Some l' -> length l' = length l.
Proof.
  revert i l'. induction l as [|y l IH]; intros [|i] l' E; simpl in E;
    try discriminate.
  - injection E as <-. reflexivity.
  - destruct (set_nth l i x) as [l1|] eqn:E1; [|discriminate].
    injection E as <-. simpl. now rewrite (IH i l1 E1).
Qed.

Lemma set_nth_in_range {A : Type} (l : list A) (i : nat) (x : A) :
  (i < length l)%nat -> exists l', set_nth l i x = Some l'.
Proof.
  revert i. induction l as [|y l IH]; intros [|i] Hi; simpl in *; try lia.
  - eexists. reflexivity.
  - destruct (IH i) as [l' ->]; [lia|]. eexists. reflexivity.
Qed.

Lemma nth_error_set_nth {A : Type} (l l' : list A) (i k : nat) (x : A) :
  set_nth l i x = Some l' ->
  nth_error l' k = if (k =? i)%nat then Some x else nth_error l k.
Proof.
  revert i k l'. induction l as [|y l IH]; intros [|i] k l' E; simpl in E;
    try discriminate.
  - injection E as <-. destruct k; reflexivity.
  - destruct (set_nth l i x) as [l1|] eqn:E1; [|discriminate].
    injection E as <-. destruct k as [|k]; [reflexivity|].
    simpl. apply (IH i k l1 E1).
Qed.

(** Reading after an assignment. *)
Lemma get2_setitem2 {A : Type} (M M' : list (list A)) (i j i' j' : nat) (x : A) :
  setitem2 M i j x = Some M' ->
  get2 M' i' j' =
  if ((i' =? i) && (j' =? j))%nat then Some x else get2 M i' j'.
Proof.
  unfold setitem2, get2. intros E.
  destruct (nth_error M i) as [r|] eqn:Er; [|discriminate].
  destruct (set_nth r j x) as [r'|] eqn:Er'; [|discriminate].
  rewrite (nth_error_set_nth M M' i i' r' E).
  destruct (Nat.eqb_spec i' i) as [->|Hne]; simpl.
  - rewrite Er. apply (nth_error_set_nth r r' j j' x Er').
  - reflexivity.
Qed.

(** An assignment inside the array succeeds. *)
Lemma setitem2_in_range {A : Type} (M : list (list A)) (i j : nat) (x y : A) :
  get2 M i j = Some y -> exists M', setitem2 M i j x = Some M'.
Proof.
  unfold get2, setitem2. intros E.
  destruct (nth_error M i) as [r|] eqn:Er; [|discriminate].
  destruct (set_nth_in_range r j x) as [r' ->].
  { apply nth_error_Some. congruence. }
  apply set_nth_in_range. apply nth_error_Some. congruence.
Qed.

(** An assignment outside the array fails, as an [IndexError] does. *)
Lemma setitem2_out_of_range {A : Type} (M : list (list A)) (i j : nat) (x : A) :
  get2 M i j = None -> setitem2 M i j x = None.
Proof.
  unfold get2, setitem2. intros E.
  destruct (nth_error M i) as [r|] eqn:Er; [|reflexivity].
  destruct (set_nth r j x) as [r'|] eqn:Er'; [|reflexivity].
  exfalso. apply nth_error_None in E.
  pose proof (nth_error_set_nth r r' j j x Er') as E'.
  rewrite Nat.eqb_refl in E'.
  assert (Hlt : (j < length r')%nat) by (apply nth_error_Some; congruence).
  rewrite (set_nth_length r r' j x Er') in Hlt. lia.
Qed.

Section MatrixItems.

Context {R : scalar}.
Local Open Scope scalar_scope.

Lemma get2_entry (n m : nat) (A : matrix R) (i j : nat) :
  is_array n m A = true -> (i < n)%nat -> (j < m)%nat ->
  get2 A i j = Some (entry A i j).
Proof.
  intros HA Hi Hj. apply is_array_spec in HA. destruct HA as [Hlen Hrows].
  unfold get2, entry.
  rewrite (nth_error_nth' A []) by lia.
  apply nth_error_nth'. rewrite Hrows; [assumption|]. apply nth_In. lia.
Qed.

Lemma get2_entry_inv (A : matrix R) (i j : nat) (x : R) :
  get2 A i j = Some x -> entry A i j = x.
Proof.
  unfold get2, entry. intros E.
  destruct (nth_error A i) as [r|] eqn:Er; [|discriminate].
  rewrite (nth_error_nth A i [] Er). now apply nth_error_nth.
Qed.

Lemma setitem2_is_array (n m : nat) (A A' : matrix R) (i j : nat) (x : R) :
  is_array n m A = true -> setitem2 A i j x = Some A' ->
  is_array n m A' = true.
Proof.
  intros HA E. apply is_array_spec in HA. destruct HA as [Hlen Hrows].
  unfold setitem2 in E.
  destruct (nth_error A i) as [r|] eqn:Er; [|discriminate].
  destruct (set_nth r j x) as [r'|] eqn:Er'; [|discriminate].
  apply is_array_spec. split.
  - now rewrite (set_nth_length A A' i r' E).
  - intros s Hs. apply In_nth_error in Hs. destruct Hs as [k Hk].
    rewrite (nth_error_set_nth A A' i k r' E) in Hk.
    destruct (k =? i)%nat.
    + injection Hk as <-. rewrite (set_nth_length r r' j x Er').
      apply Hrows. now apply nth_error_In with i.
    + apply Hrows. now apply nth_error_In with k.
Qed.

(** [H[i,j] = x] inside an [n] by [m] array: it succeeds, the shape is kept
    and only the entry [(i,j)] changes. *)
Lemma setitem2_matrix (n m : nat) (A : matrix R) (i j : nat) (x : R) :
  is_array n m A = true -> (i < n)%nat -> (j < m)%nat ->
  exists A', setitem2 A i j x = Some A' /\ is_array n m A' = true /\
    forall i' j', (i' < n)%nat -> (j' < m)%nat ->
      entry A' i' j' =
      if ((i' =? i) && (j' =? j))%nat then x else entry A i' j'.
Proof.
  intros HA Hi Hj.
  destruct (setitem2_in_range A i j x (entry A i j)
              (get2_entry n m A i j HA Hi Hj)) as [A' E].
  exists A'. split; [exact E|]. split; [apply (setitem2_is_array n m A A' i j x HA E)|].
  intros i' j' Hi' Hj'. apply get2_entry_inv.
  rewrite (get2_setitem2 A A' i j i' j' x E).
  destruct ((i' =? i) && (j' =? j))%nat; [reflexivity|].
  now apply (get2_entry n m).
Qed.

End MatrixItems.

(* ================================================================= *)
(** * The construction of the Hamiltonian *)

Section Construction.

Context {R : scalar}.
Local Open Scope scalar_scope.

Add Ring construction_ring : (scalar_ring R).

Lemma adjacent_sym (i j : nat) : adjacent i j = adjacent j i.
Proof.
  unfold adjacent. f_equal.
  replace (Z.of_nat j - Z.of_nat i)%Z with (- (Z.of_nat i - Z.of_nat j))%Z
    by lia.
  now rewrite Z.abs_opp.
Qed.

Lemma adjacent_irrefl (i : nat) : adjacent i i = false.
Proof. unfold adjacent. now rewrite Z.sub_diag. Qed.

Lemma adjacent_spec (i j : nat) :
  adjacent i j = true <-> (i = S j \/ j = S i).
Proof. unfold adjacent. rewrite Z.eqb_eq. lia. Qed.

(** The inner loop over a list [js] of column indices. *)
Lemma build_row_loop (J : R) (n i : nat) (js : list nat) :
  (i < n)%nat -> (forall j, In j js -> (j < n)%nat) ->
  forall H : matrix R, is_array n n H = true ->
  exists H',
    for_each js
      (fun j H => if adjacent i j then setitem2 H i j J else Some H) H =
    Some H' /\
    is_array n n H' = true /\
    forall i' j', (i' < n)%nat -> (j' < n)%nat ->
      entry H' i' j' =
      if ((i' =? i)%nat && adjacent i j' && existsb (Nat.eqb j') js)%bool
      then J else entry H i' j'.
Proof.
  intros Hi. induction js as [|j js IH]; intros Hjs H HH.
  - exists H. split; [reflexivity|]. split; [exact HH|].
    intros i' j' _ _. simpl. now rewrite andb_false_r.
  - assert (Hj : (j < n)%nat) by (apply Hjs; now left).
    assert (Hjs' : forall j0, In j0 js -> (j0 < n)%nat)
      by (intros j0 Hin; apply Hjs; now right).
    cbn [for_each]. destruct (adjacent i j) eqn:Eadj.
    + destruct (setitem2_matrix n n H i j J HH Hi Hj) as [H1 [E1 [HH1 Hent1]]].
      rewrite E1.
      destruct (IH Hjs' H1 HH1) as [H' [E' [HH' Hent']]].
      exists H'. split; [exact E'|]. split; [exact HH'|].
      intros i' j' Hi' Hj'. rewrite (Hent' i' j' Hi' Hj').
      rewrite (Hent1 i' j' Hi' Hj'). cbn [existsb].
      destruct (Nat.eqb_spec i' i) as [->|Hne]; simpl; [|reflexivity].
      destruct (Nat.eqb_spec j' j) as [->|Hne']; simpl.
      * rewrite Eadj. simpl. now destruct (existsb (Nat.eqb j) js).
      * reflexivity.
    + destruct (IH Hjs' H HH) as [H' [E' [HH' Hent']]].
      exists H'. split; [exact E'|]. split; [exact HH'|].
      intros i' j' Hi' Hj'. rewrite (Hent' i' j' Hi' Hj'). cbn [existsb].
      destruct (Nat.eqb_spec j' j) as [->|Hne']; simpl; [|reflexivity].
      rewrite Eadj. now rewrite andb_false_r.
Qed.

Lemma existsb_range (n j : nat) :
  (j < n)%nat -> existsb (Nat.eqb j) (range n) = true.
Proof.
  intros Hj. apply existsb_exists. exists j. split.
  - apply in_seq. lia.
  - apply Nat.eqb_refl.
Qed.

Lemma build_row_spec (J : R) (n i : nat) (H : matrix R) :
  (i < n)%nat -> is_array n n H = true ->
  exists H',
    build_row J n i H = Some H' /\ is_array n n H' = true /\
    forall i' j', (i' < n)%nat -> (j' < n)%nat ->
      entry H' i' j' =
      if ((i' =? i)%nat && adjacent i j')%bool then J else entry H i' j'.
Proof.
  intros Hi HH.
  destruct (build_row_loop J n i (range n) Hi) with (H := H)
    as [H' [E [HH' Hent]]].
  - intros j Hj. apply in_seq in Hj. lia.
  - exact HH.
  - exists H'. split; [exact E|]. split; [exact HH'|].
    intros i' j' Hi' Hj'. rewrite (Hent i' j' Hi' Hj').
    now rewrite (existsb_range n j' Hj'), andb_true_r.
Qed.

(** The outer loop over the rows [a], ..., [a + len - 1]. *)
Lemma build_H_loop (n : nat) (W J : R) (len : nat) :
  forall (a : nat) (H : matrix R) (g : rng),
  (a + len <= n)%nat -> is_array n n H = true ->
  exists H',
    for_each (seq a len)
      (fun i st =>
         let (x, g') := uniform (- W) W (snd st) in
         match setitem2 (fst st) i i x with
         | Some H1 =>
             match build_row J n i H1 with
             | Some H2 => Some (H2, g')
             | None => None
             end
         | None => None
         end) (H, g) =
    Some (H', Rng (rng_stream g) (rng_pos g + len)) /\
    is_array n n H' = true /\
    forall i j, (i < n)%nat -> (j < n)%nat ->
      entry H' i j =
      if ((a <=? i)%nat && (i <? a + len)%nat)%bool
      then if (i =? j)%nat then rng_stream g (rng_pos g + (i - a))
           else if adjacent i j then J else entry H i j
      else entry H i j.
Proof.
  induction len as [|len IH]; intros a H g Hlen HH.
  - exists H. split.
    + simpl. rewrite Nat.add_0_r. now destruct g.
    + split; [exact HH|]. intros i j _ _.
      destruct (Nat.leb_spec a i); destruct (Nat.ltb_spec i (a + 0)); simpl;
        try reflexivity; lia.
  - assert (Ha : (a < n)%nat) by lia.
    cbn [seq for_each]. unfold uniform at 1. cbn [fst snd].
    destruct (setitem2_matrix n n H a a (rng_stream g (rng_pos g)) HH Ha Ha)
      as [H1 [E1 [HH1 Hent1]]].
    rewrite E1.
    destruct (build_row_spec J n a H1 Ha HH1) as [H2 [E2 [HH2 Hent2]]].
    rewrite E2.
    destruct (IH (S a) H2 (Rng (rng_stream g) (S (rng_pos g))))
      as [H' [E' [HH' Hent']]]; [lia | exact HH2 |].
    exists H'. split.
    + rewrite E'. cbn [rng_stream rng_pos]. do 3 f_equal. lia.
    + split; [exact HH'|]. intros i j Hi Hj.
      rewrite (Hent' i j Hi Hj). cbn [rng_stream rng_pos].
      rewrite (Hent2 i j Hi Hj), (Hent1 i j Hi Hj).
      destruct (Nat.leb_spec (S a) i) as [Hai|Hai];
        destruct (Nat.ltb_spec i (S a + len)) as [Hil|Hil];
        destruct (Nat.leb_spec a i) as [Hai'|Hai'];
        destruct (Nat.ltb_spec i (a + S len)) as [Hil'|Hil'];
        cbn [andb]; try lia.
      * destruct (Nat.eqb_spec i j) as [_|_].
        -- f_equal. lia.
        -- destruct (adjacent i j); [reflexivity|].
           destruct (Nat.eqb_spec i a); [lia|]. reflexivity.
      * destruct (Nat.eqb_spec i a); [lia|]. reflexivity.
      * assert (i = a) by lia. subst i. rewrite Nat.eqb_refl. cbn [andb].
        rewrite Nat.sub_diag, Nat.add_0_r.
        destruct (Nat.eqb_spec a j) as [<-|Hne].
        -- now rewrite adjacent_irrefl, Nat.eqb_refl.
        -- destruct (adjacent a j); [reflexivity|].
           destruct (Nat.eqb_spec j a); [congruence | reflexivity].
      * destruct (Nat.eqb_spec i a); [lia|]. reflexivity.
Qed.

(** The whole construction, from [np.zeros((n,n))]. *)
Lemma build_H_run (n : nat) (W J : R) (g : rng) :
  exists H,
    build_H n W J g = Some (H, Rng (rng_stream g) (rng_pos g + n)) /\
    is_array n n H = true /\
    forall i j, (i < n)%nat -> (j < n)%nat ->
      entry H i j =
      if (i =? j)%nat then rng_stream g (rng_pos g + i)
      else if adjacent i j then J else 0.
Proof.
  destruct (build_H_loop n W J n 0 (mzero n) g) as [H [E [HH Hent]]];
    [lia | apply is_array_tabulate |].
  exists H. split; [exact E|]. split; [exact HH|].
  intros i j Hi Hj. rewrite (Hent i j Hi Hj).
  destruct (Nat.ltb_spec i (0 + n)); [|lia]. cbn [Nat.leb andb].
  rewrite Nat.sub_0_r. now rewrite entry_mzero.
Qed.

(** X10.  The construction never fails with an [IndexError]; it returns an
    [n] by [n] array with the drawn samples on the diagonal, in the order of
    the draws, [J] next to the diagonal ([j = i + 1] or [i = j + 1]) and zero
    elsewhere, and it advances the generator by [n] draws. *)
Theorem build_H_spec (n : nat) (W J : R) (g : rng) :
  exists H g',
    build_H n W J g = Some (H, g') /\
    rng_stream g' = rng_stream g /\ rng_pos g' = (rng_pos g + n)%nat /\
    is_array n n H = true /\
    forall i j, (i < n)%nat -> (j < n)%nat ->
      entry H i j =
      if (i =? j)%nat then rng_stream g (rng_pos g + i)
      else if ((i =? S j) || (j =? S i))%nat then J else 0.
Proof.
  destruct (build_H_run n W J g) as [H [E [HH Hent]]].
  exists H. eexists. split; [exact E|]. repeat split; [exact HH|].
  intros i j Hi Hj. rewrite (Hent i j Hi Hj).
  destruct (i =? j)%nat; [reflexivity|].
  destruct (adjacent i j) eqn:Eadj.
  - apply adjacent_spec in Eadj.
    destruct Eadj as [-> | ->]; rewrite Nat.eqb_refl;
      [reflexivity | now rewrite orb_true_r].
  - destruct (Nat.eqb_spec i (S j)) as [->|_].
    + exfalso. assert (adjacent (S j) j = true)
        by (apply adjacent_spec; now left). congruence.
    + destruct (Nat.eqb_spec j (S i)) as [->|_]; [|reflexivity].
      exfalso. assert (adjacent i (S i) = true)
        by (apply adjacent_spec; now right). congruence.
Qed.

End Construction.

(* ================================================================= *)
(** * The constructed Hamiltonian under the flow, and the rank-4 identity *)

Section Chain.

Context {R : scalar}.
Local Open Scope scalar_scope.

Add Ring chain_ring : (scalar_ring R).

(** X11.  The constructed Hamiltonian is symmetric, and in exact
    arithmetic [flow] applied to it for any number [k+1] of steps returns a
    symmetric Hamiltonian whose diagonal sums to the sum of the [n] drawn
    samples. *)
Theorem build_H_then_flow (n : nat) (W J dl : R) (g : rng) (k : nat) :
  (1 <= n)%nat ->
  exists H g' B v U,
    build_H n W J g = Some (H, g') /\
    symmetric H /\
    call_flow H dl (S k) = Ok (B, v, U) /\
    symmetric B /\
    trace n B = sum_upto n (fun i => rng_stream g (rng_pos g + i)).
Proof.
  intros Hn. destruct (build_H_run n W J g) as [H [E [HH Hent]]].
  assert (Hs : symmetric H).
  { apply (symmetric_intro n H HH). intros i j Hi Hj.
    rewrite (Hent i j Hi Hj), (Hent j i Hj Hi).
    rewrite (Nat.eqb_sym j i), (adjacent_sym j i).
    destruct (Nat.eqb_spec i j) as [->|_]; reflexivity. }
  exists H. do 4 eexists. split; [exact E|]. split; [exact Hs|].
  split; [apply (call_flow_run n dl H k HH Hn)|].
  split; [now apply spec_state_symmetric|].
  rewrite spec_state_trace. unfold trace. apply sum_upto_ext.
  intros i Hi. rewrite (Hent i i Hi Hi). now rewrite Nat.eqb_refl.
Qed.

(** X12.  On the constructed Hamiltonian of a chain of at least two sites
    the first iteration measures [Vmax = |J|]. *)
Theorem build_H_first_vmax (n : nat) (W J dl : R) (g : rng) :
  (2 <= n)%nat ->
  exists H g' B U,
    build_H n W J g = Some (H, g') /\
    call_flow H dl 1 = Ok (B, sabs J, U).
Proof.
  intros Hn. destruct (build_H_run n W J g) as [H [E [HH Hent]]].
  exists H. do 3 eexists. split; [exact E|].
  rewrite (call_flow_run n dl H 0 HH) by lia.
  change (fst (spec_state n dl H 0)) with H.
  replace (spec_offdiag_max n H) with (sabs J); [reflexivity|].
  apply (leb_antisym R).
  - replace J with (entry H 0 1).
    + apply spec_offdiag_max_ub; lia.
    + rewrite Hent by lia. reflexivity.
  - destruct (spec_offdiag_max_attained n H Hn) as [i [j [Hi [Hj [Hne ->]]]]].
    rewrite (Hent i j Hi Hj).
    destruct (Nat.eqb_spec i j); [congruence|].
    destruct (adjacent i j); [apply leb_refl|].
    rewrite sabs_zero. apply sabs_nonneg.
Qed.

Lemma is_tensor4_zeros4 (n : nat) : is_tensor4 n (@zeros4 R n).
Proof.
  intros i j Hi Hj. exists (mzero n). split; [|apply is_array_tabulate].
  unfold get2, zeros4. rewrite nth_error_repeat by assumption.
  now apply nth_error_repeat.
Qed.

Lemma entry4_zeros4 (n i j k l : nat) :
  (i < n)%nat -> (j < n)%nat -> (k < n)%nat -> (l < n)%nat ->
  entry4 (@zeros4 R n) i j k l = 0.
Proof.
  intros Hi Hj Hk Hl. unfold entry4.
  destruct (is_tensor4_zeros4 n i j Hi Hj) as [m [Em _]].
  unfold get2, zeros4 in *. rewrite nth_error_repeat in * by assumption.
  rewrite nth_error_repeat by assumption. now apply entry_mzero.
Qed.

(** [T[i,j,k,l] = x] inside the array: it succeeds, the shape is kept and
    only that entry changes. *)
Lemma setitem4_spec (n : nat) (T : @tensor4 R) (i j k l : nat) (x : R) :
  is_tensor4 n T ->
  (i < n)%nat -> (j < n)%nat -> (k < n)%nat -> (l < n)%nat ->
  exists T', setitem4 T i j k l x = Some T' /\ is_tensor4 n T' /\
    forall i' j' k' l',
      (i' < n)%nat -> (j' < n)%nat -> (k' < n)%nat -> (l' < n)%nat ->
      entry4 T' i' j' k' l' =
      if ((i' =? i) && (j' =? j) && ((k' =? k) && (l' =? l)))%nat
      then x else entry4 T i' j' k' l'.
Proof.
  intros HT Hi Hj Hk Hl.
  destruct (HT i j Hi Hj) as [m [Em Hm]].
  destruct (setitem2_matrix n n m k l x Hm Hk Hl) as [m' [Em' [Hm' Hent]]].
  destruct (setitem2_in_range T i j m' m Em) as [T' ET'].
  exists T'. split; [|split].
  - unfold setitem4. now rewrite Em, Em'.
  - intros i' j' Hi' Hj'. rewrite (get2_setitem2 T T' i j i' j' m' ET').
    destruct ((i' =? i) && (j' =? j))%nat; [now exists m' | now apply HT].
  - intros i' j' k' l' Hi' Hj' Hk' Hl'. unfold entry4.
    rewrite (get2_setitem2 T T' i j i' j' m' ET').
    destruct (Nat.eqb_spec i' i) as [->|_]; [|reflexivity].
    destruct (Nat.eqb_spec j' j) as [->|_]; [|reflexivity].
    cbn [andb]. rewrite Em. now apply Hent.
Qed.

(** The inner loop of the construction of [U4]. *)
Lemma build_U4_inner (n i : nat) (js : list nat) :
  (i < n)%nat -> (forall j, In j js -> (j < n)%nat) ->
  forall T : @tensor4 R, is_tensor4 n T ->
  exists T',
    for_each js (fun j T => setitem4 T i i j j 1) T = Some T' /\
    is_tensor4 n T' /\
    forall i' k' j' l',
      (i' < n)%nat -> (k' < n)%nat -> (j' < n)%nat -> (l' < n)%nat ->
      entry4 T' i' k' j' l' =
      if ((i' =? i) && (k' =? i) && ((j' =? l') && existsb (Nat.eqb j') js))%nat
      then 1 else entry4 T i' k' j' l'.
Proof.
  intros Hi. induction js as [|j js IH]; intros Hjs T HT.
  - exists T. split; [reflexivity|]. split; [exact HT|].
    intros i' k' j' l' _ _ _ _. cbn [existsb].
    now rewrite !andb_false_r.
  - assert (Hj : (j < n)%nat) by (apply Hjs; now left).
    destruct (setitem4_spec n T i i j j 1 HT Hi Hi Hj Hj)
      as [T1 [E1 [HT1 Hent1]]].
    destruct (IH (fun j0 Hin => Hjs j0 (or_intror Hin)) T1 HT1)
      as [T' [E' [HT' Hent']]].
    exists T'. split; [cbn [for_each]; now rewrite E1|]. split; [exact HT'|].
    intros i' k' j' l' Hi' Hk' Hj' Hl'.
    rewrite (Hent' i' k' j' l' Hi' Hk' Hj' Hl').
    rewrite (Hent1 i' k' j' l' Hi' Hk' Hj' Hl'). cbn [existsb].
    destruct (Nat.eqb_spec i' i); [|reflexivity].
    destruct (Nat.eqb_spec k' i); [|reflexivity]. cbn [andb].
    destruct (Nat.eqb_spec j' l') as [<-|Hne]; cbn [andb].
    + destruct (Nat.eqb_spec j' j); cbn [orb andb];
        now destruct (existsb (Nat.eqb j') js).
    + destruct (Nat.eqb_spec j' j); [|reflexivity].
      destruct (Nat.eqb_spec l' j); [congruence | reflexivity].
Qed.

(** The outer loop. *)
Lemma build_U4_outer (n : nat) (rows : list nat) :
  (forall i, In i rows -> (i < n)%nat) ->
  forall T : @tensor4 R, is_tensor4 n T ->
  exists T',
    for_each rows
      (fun i T => for_each (range n) (fun j T => setitem4 T i i j j 1) T) T =
    Some T' /\
    is_tensor4 n T' /\
    forall i' k' j' l',
      (i' < n)%nat -> (k' < n)%nat -> (j' < n)%nat -> (l' < n)%nat ->
      entry4 T' i' k' j' l' =
      if ((i' =? k') && (j' =? l') && existsb (Nat.eqb i') rows)%nat
      then 1 else entry4 T i' k' j' l'.
Proof.
  induction rows as [|i rows IH]; intros Hrows T HT.
  - exists T. split; [reflexivity|]. split; [exact HT|].
    intros i' k' j' l' _ _ _ _. cbn [existsb]. now rewrite andb_false_r.
  - assert (Hi : (i < n)%nat) by (apply Hrows; now left).
    destruct (build_U4_inner n i (range n) Hi) with (T := T)
      as [T1 [E1 [HT1 Hent1]]].
    { intros j Hj. apply in_seq in Hj. lia. }
    { exact HT. }
    destruct (IH (fun i0 Hin => Hrows i0 (or_intror Hin)) T1 HT1)
      as [T' [E' [HT' Hent']]].
    exists T'. split; [cbn [for_each]; now rewrite E1|]. split; [exact HT'|].
    intros i' k' j' l' Hi' Hk' Hj' Hl'.
    rewrite (Hent' i' k' j' l' Hi' Hk' Hj' Hl').
    rewrite (Hent1 i' k' j' l' Hi' Hk' Hj' Hl').
    rewrite (existsb_range n j' Hj'), andb_true_r. cbn [existsb].
    destruct (Nat.eqb_spec i' k') as [<-|Hne]; cbn [andb].
    + destruct (Nat.eqb_spec j' l'); cbn [andb].
      * destruct (Nat.eqb_spec i' i); cbn [orb andb];
          now destruct (existsb (Nat.eqb i') rows).
      * rewrite andb_false_r. reflexivity.
    + destruct (Nat.eqb_spec i' i); [|reflexivity].
      destruct (Nat.eqb_spec k' i); [congruence | reflexivity].
Qed.

(** X13.  The construction of [U4] never fails with an [IndexError], and
    [U4] is the product of two copies of [U2 = np.identity(n)]:
    [U4[i,k,j,l] = U2[i,k] * U2[j,l]]. *)
Theorem build_U4_spec (n : nat) :
  exists T : @tensor4 R,
    build_U4 n = Some T /\ is_tensor4 n T /\
    forall i k j l,
      (i < n)%nat -> (k < n)%nat -> (j < n)%nat -> (l < n)%nat ->
      entry4 T i k j l = entry (identity n) i k * entry (identity n) j l.
Proof.
  destruct (build_U4_outer n (range n)) with (T := @zeros4 R n)
    as [T [E [HT Hent]]].
  - intros i Hi. apply in_seq in Hi. lia.
  - apply is_tensor4_zeros4.
  - exists T. split; [exact E|]. split; [exact HT|].
    intros i k j l Hi Hk Hj Hl.
    rewrite (Hent i k j l Hi Hk Hj Hl), !entry_identity by assumption.
    rewrite (existsb_range n i Hi), andb_true_r.
    rewrite entry4_zeros4 by assumption.
    destruct (i =? k)%nat; destruct (j =? l)%nat; cbn [andb]; ring.
Qed.

End Chain.

(* ================================================================= *)
(** * Rescaling the Hamiltonian *)

Section Scaling.

Context {R : scalar}.
Local Open Scope scalar_scope.

Add Ring scaling_ring : (scalar_ring R).

(** The generator is quadratic in the Hamiltonian. *)
Lemma generator_scale (n : nat) (c : R) (A : matrix R) :
  spec_generator n (mscale n c A) = mscale n (c * c) (spec_generator n A).
Proof.
  apply (array_ext n n); auto with arrays.
  intros i j Hi Hj.
  rewrite entry_mscale, !entry_generator, !entry_mscale by assumption.
  destruct (i =? j)%nat; ring.
Qed.

Lemma step_scale (n : nat) (dl c : R) (A U : matrix R) :
  spec_euler_step n dl (mscale n c A, U) =
  (mscale n c (fst (spec_euler_step n (c * c * dl) (A, U))),
   snd (spec_euler_step n (c * c * dl) (A, U))).
Proof.
  rewrite (surjective_pairing (spec_euler_step n dl (mscale n c A, U))).
  f_equal.
  - apply (array_ext n n); [apply is_array_euler_step | auto with arrays |].
    intros i j Hi Hj.
    rewrite entry_mscale, !entry_step, entry_mscale by assumption.
    rewrite generator_scale.
    rewrite (sum_upto_ext n
               (fun k => entry (mscale n (c * c) (spec_generator n A)) i k *
                         entry (mscale n c A) k j)
               (fun k => c * c * c *
                         (entry (spec_generator n A) i k * entry A k j)))
      by (intros k Hk; rewrite !entry_mscale by assumption; ring).
    rewrite (sum_upto_ext n
               (fun k => entry (mscale n c A) i k *
                         entry (mscale n (c * c) (spec_generator n A)) k j)
               (fun k => c * c * c *
                         (entry A i k * entry (spec_generator n A) k j)))
      by (intros k Hk; rewrite !entry_mscale by assumption; ring).
    rewrite !sum_upto_scal. ring.
  - unfold spec_euler_step. simpl snd; simpl fst.
    rewrite generator_scale. f_equal. f_equal.
    unfold mscale at 1. apply tabulate_ext. intros i j Hi Hj.
    rewrite !entry_mscale by assumption. ring.
Qed.

Lemma spec_state_scale (n : nat) (dl c : R) (A : matrix R) (k : nat) :
  spec_state n dl (mscale n c A) k =
  (mscale n c (fst (spec_state n (c * c * dl) A k)),
   snd (spec_state n (c * c * dl) A k)).
Proof.
  induction k as [|k IH]; [reflexivity|].
  unfold spec_state in *. simpl Nat.iter. rewrite IH, step_scale.
  now rewrite <- surjective_pairing.
Qed.

(** X14.  In exact arithmetic, rescaling the Hamiltonian by [c] is the same
    as rescaling the step by [c**2]: [flow(c*H, dl)] returns [c] times the
    Hamiltonian that [flow(H, c**2*dl)] returns, with the same [U]. *)
Theorem flow_rescaling (n : nat) (dl c : R) (A : matrix R) (k : nat) :
  is_array n n A = true -> (1 <= n)%nat ->
  exists B v U v',
    call_flow A (c * c * dl) (S k) = Ok (B, v, U) /\
    call_flow (scale c A) dl (S k) = Ok (scale c B, v', U).
Proof.
  intros HA Hn.
  destruct (is_array_spec_state n (c * c * dl) A (S k) HA) as [HB _].
  do 4 eexists. split; [apply (call_flow_run n (c * c * dl) A k HA Hn)|].
  rewrite !(scale_square n) by assumption.
  rewrite (call_flow_run n dl _ k (is_array_mscale n c A) Hn).
  rewrite !spec_state_scale. reflexivity.
Qed.

End Scaling.

(* ================================================================= *)
(** * The laws at concrete inputs *)

Lemma flow_calls_compose_witness :
  exists H1 v1 U1 H2 v2 U2 U21,
    call_flow Runs.H_wide (1%Z : Zscalar) 1 = Ok (H1, v1, U1) /\
    call_flow H1 (1%Z : Zscalar) 2 = Ok (H2, v2, U2) /\
    matmul U2 U1 = Ok U21 /\
    call_flow Runs.H_wide (1%Z : Zscalar) (2 + 1) = Ok (H2, v2, U21).
Proof.
  apply (@flow_calls_compose Zscalar 2 1%Z Runs.H_wide 0 1);
    [reflexivity | lia].
Defined.


Lemma flow_energy_shift_witness :
  exists Ac B v U Bc,
    madd Runs.H_wide (scale (5%Z : Zscalar) (identity 2)) = Ok Ac /\
    call_flow Runs.H_wide (1%Z : Zscalar) 2 = Ok (B, v, U) /\
    madd B (scale (5%Z : Zscalar) (identity 2)) = Ok Bc /\
    call_flow Ac (1%Z : Zscalar) 2 = Ok (Bc, v, U).
Proof.
  apply (@flow_energy_shift Zscalar 2 1%Z 5%Z Runs.H_wide 1);
    [reflexivity | lia].
Defined.


Lemma flow_not_square_raises_witness :
  flow 0%nat (1%Z : Zscalar) 1 [[[1; 2; 3]]%Z] =
  ([[[1; 2; 3]]%Z] ++ [[[1; 2; 3]]%Z], Raise ValueError).
Proof.
  apply (@flow_not_square_raises Zscalar 1 3 1%Z [[[1; 2; 3]]%Z] 0%nat
           [[1; 2; 3]]%Z 0); [reflexivity | reflexivity | left; lia].
Defined.

Lemma flow_first_step_orthogonality_witness :
  symmetric Runs.H_wide /\
  exists B v U,
    call_flow Runs.H_wide (1%Z : Zscalar) 1 = Ok (B, v, U) /\
    matmul U (transpose U) =
    Ok (mplus 2 (identity 2)
          (mscale 2 ((1 * 1)%Z : Zscalar)
             (mtimes 2 (spec_generator 2 Runs.H_wide)
                (transpose (spec_generator 2 Runs.H_wide))))).
Proof.
  split; [reflexivity|].
  apply (@flow_first_step_orthogonality Zscalar 2 1%Z Runs.H_wide);
    [reflexivity | lia | reflexivity].
Defined.

Lemma reconstruct_symmetric_witness :
  symmetric Runs.H_wide /\
  exists B,
    reconstruct ([[1; 2]; [-2; 1]]%Z : matrix Zscalar) Runs.H_wide = Ok B /\
    is_array 2 2 B = true /\ symmetric B.
Proof.
  split; [reflexivity|].
  apply (@reconstruct_symmetric Zscalar 2 [[1; 2]; [-2; 1]]%Z Runs.H_wide);
    reflexivity.
Defined.

Lemma reconstruct_first_step_witness :
  symmetric Runs.H_wide /\
  exists B v U,
    call_flow Runs.H_wide (1%Z : Zscalar) 1 = Ok (B, v, U) /\
    reconstruct U Runs.H_wide =
    Ok (mminus 2 B
          (mscale 2 ((1 * 1)%Z : Zscalar)
             (mtimes 2 (mtimes 2 (spec_generator 2 Runs.H_wide) Runs.H_wide)
                (spec_generator 2 Runs.H_wide)))).
Proof.
  split; [reflexivity|].
  apply (@reconstruct_first_step Zscalar 2 1%Z Runs.H_wide);
    [reflexivity | lia | reflexivity].
Defined.

Lemma build_H_then_flow_witness :
  exists H g' B v U,
    build_H 4 (5%Z : Zscalar) 1%Z (@Rng Zscalar Z.of_nat 0) = Some (H, g') /\
    symmetric H /\
    call_flow H (1%Z : Zscalar) 2 = Ok (B, v, U) /\
    symmetric B /\
    trace 4 B =
    sum_upto 4 (fun i => rng_stream (@Rng Zscalar Z.of_nat 0)
                           (rng_pos (@Rng Zscalar Z.of_nat 0) + i)).
Proof.
  apply (@build_H_then_flow Zscalar 4 5%Z 1%Z 1%Z (@Rng Zscalar Z.of_nat 0) 1).
  lia.
Defined.

Lemma build_H_first_vmax_witness :
  exists H g' B U,
    build_H 4 (5%Z : Zscalar) 1%Z (@Rng Zscalar Z.of_nat 0) = Some (H, g') /\
    call_flow H (1%Z : Zscalar) 1 = Ok (B, sabs (1%Z : Zscalar), U).
Proof.
  apply (@build_H_first_vmax Zscalar 4 5%Z 1%Z 1%Z (@Rng Zscalar Z.of_nat 0)).
  lia.
Defined.

Lemma flow_rescaling_witness :
  exists B v U v',
    call_flow Runs.H_wide ((2 * 2 * 1)%Z : Zscalar) 2 = Ok (B, v, U) /\
    call_flow (scale (2%Z : Zscalar) Runs.H_wide) (1%Z : Zscalar) 2 =
    Ok (scale (2%Z : Zscalar) B, v', U).
Proof.
  apply (@flow_rescaling Zscalar 2 1%Z 2%Z Runs.H_wide 1);
    [reflexivity | lia].
Defined.

(* ================================================================= *)
(** * The second spectral invariant *)

Section SecondInvariant.

Context {R : scalar}.
Local Open Scope scalar_scope.

Add Ring invariant_ring : (scalar_ring R).

Lemma trace_mtimes_comm (n : nat) (A B : matrix R) :
  trace n (mtimes n A B) = trace n (mtimes n B A).
Proof.
  unfold trace.
  rewrite (sum_upto_ext n _
             (fun i => sum_upto n (fun k => entry A i k * entry B k i)))
    by (intros i Hi; now rewrite entry_mtimes).
  rewrite (sum_upto_ext n (fun i => entry (mtimes n B A) i i)
             (fun i => sum_upto n (fun k => entry B i k * entry A k i)))
    by (intros i Hi; now rewrite entry_mtimes).
  apply (trace_commutator n (fun i k => entry A i k) (fun i k => entry B i k)).
Qed.

Lemma trace_mplus (n : nat) (A B : matrix R) :
  trace n (mplus n A B) = trace n A + trace n B.
Proof.
  unfold trace. rewrite <- sum_upto_add. apply sum_upto_ext.
  intros i Hi. now rewrite entry_mplus.
Qed.

Lemma trace_mminus (n : nat) (A B : matrix R) :
  trace n (mminus n A B) = trace n A - trace n B.
Proof.
  unfold trace. rewrite <- sum_upto_sub. apply sum_upto_ext.
  intros i Hi. now rewrite entry_mminus.
Qed.

Lemma trace_mscale (n : nat) (c : R) (A : matrix R) :
  trace n (mscale n c A) = c * trace n A.
Proof.
  unfold trace. rewrite <- sum_upto_scal. apply sum_upto_ext.
  intros i Hi. now rewrite entry_mscale.
Qed.

(** The trace of the square of [A + c*D]. *)
Lemma trace_square_expand (n : nat) (c : R) (A D : matrix R) :
  trace n (mtimes n (mplus n A (mscale n c D)) (mplus n A (mscale n c D))) =
  trace n (mtimes n A A) + (1 + 1) * c * trace n (mtimes n A D) +
  c * c * trace n (mtimes n D D).
Proof.
  transitivity (trace n (mtimes n A A) + c * trace n (mtimes n A D) +
                c * trace n (mtimes n D A) + c * c * trace n (mtimes n D D)).
  - unfold trace.
    rewrite <- !sum_upto_scal, <- !sum_upto_add. apply sum_upto_ext.
    intros i Hi. rewrite !entry_mtimes by assumption.
    rewrite <- !sum_upto_scal, <- !sum_upto_add. apply sum_upto_ext.
    intros k Hk.
    rewrite !entry_mplus, !entry_mscale by assumption. ring.
  - rewrite (trace_mtimes_comm n D A). ring.
Qed.

(** [tr(H.(eta.H - H.eta)) = 0], whatever [eta] is. *)
Lemma trace_times_commutator (n : nat) (A E : matrix R) :
  trace n (mtimes n A (mminus n (mtimes n E A) (mtimes n A E))) = 0.
Proof.
  transitivity (trace n (mtimes n A (mtimes n E A)) -
                trace n (mtimes n A (mtimes n A E))).
  - unfold trace. rewrite <- sum_upto_sub. apply sum_upto_ext.
    intros i Hi. rewrite !entry_mtimes by assumption.
    rewrite <- sum_upto_sub. apply sum_upto_ext. intros k Hk.
    rewrite entry_mminus by assumption. ring.
  - rewrite <- (mtimes_assoc n A E A).
    rewrite (trace_mtimes_comm n (mtimes n A E) A). ring.
Qed.

(** X15.  In exact arithmetic the Euler step keeps the trace but not the
    trace of the square: after one step
    [tr(H1@H1) = tr(H@H) + dl**2 * tr(dH@dH)], with [dH = eta@H - H@eta], so
    the spectrum of the returned Hamiltonian drifts at second order in the
    step. *)
Theorem flow_second_invariant_drift (n : nat) (dl : R) (A : matrix R) :
  is_array n n A = true -> (1 <= n)%nat ->
  exists B v U BB AA dH dHdH,
    call_flow A dl 1 = Ok (B, v, U) /\
    matmul B B = Ok BB /\ matmul A A = Ok AA /\
    loop_body n dl A (identity n) = Ok dH /\
    matmul (l_dH dH) (l_dH dH) = Ok dHdH /\
    trace n BB = trace n AA + dl * dl * trace n dHdH.
Proof.
  intros HA Hn.
  destruct (is_array_spec_state n dl A 1 HA) as [HB _].
  do 7 eexists. split; [apply (call_flow_run n dl A 0 HA Hn)|].
  split; [apply (matmul_square n _ _ HB HB)|].
  split; [apply (matmul_square n _ _ HA HA)|].
  split; [apply (loop_body_square n dl A _ HA (identity_is_array n) Hn)|].
  cbn [l_dH].
  split; [apply (matmul_square n); auto with arrays|].
  change (fst (spec_state n dl A 1))
    with (mplus n A (mscale n dl
            (mminus n (mtimes n (spec_generator n A) A)
                      (mtimes n A (spec_generator n A))))).
  rewrite trace_square_expand, trace_times_commutator. ring.
Qed.

End SecondInvariant.

Lemma flow_second_invariant_drift_witness :
  exists B v U BB AA dH dHdH,
    call_flow Runs.H_wide (1%Z : Zscalar) 1 = Ok (B, v, U) /\
    matmul B B = Ok BB /\ matmul Runs.H_wide Runs.H_wide = Ok AA /\
    loop_body 2 (1%Z : Zscalar) Runs.H_wide (identity 2) = Ok dH /\
    matmul (l_dH dH) (l_dH dH) = Ok dHdH /\
    trace 2 BB = (trace 2 AA + 1 * 1 * trace 2 dHdH)%Z.
Proof.
  apply (@flow_second_invariant_drift Zscalar 2 1%Z Runs.H_wide);
    [reflexivity | lia].
Defined.

(* ================================================================= *)
(** * Eigenvalues as roots of the characteristic polynomial *)

Section Spectrum.

Import Reals Qreals Lra.
Local Open Scope R_scope.

Lemma Q2R_zero : Q2R 0 = 0.
Proof. unfold Q2R. simpl. lra. Qed.

Lemma Q2R_one : Q2R 1 = 1.
Proof. unfold Q2R. simpl. lra. Qed.

Lemma drop_nth_map {A B : Type} (f : A -> B) (j : nat) (l : list A) :
  drop_nth j (map f l) = map f (drop_nth j l).
Proof.
  revert j. induction l as [|a l IH]; intros [|j]; simpl; try reflexivity.
  now rewrite IH.
Qed.

Lemma minor_map {A B : Type} (f : A -> B) (j : nat) (M : list (list A)) :
  map (drop_nth j) (map (map f) M) = map (map f) (map (drop_nth j) M).
Proof.
  rewrite !map_map. apply map_ext. intros l. apply drop_nth_map.
Qed.

(** The determinant over the reals of a rational matrix is the rational
    determinant. *)
Lemma expand_Q2R (dQ : list (list Q) -> Q) (dR : list (list R) -> R) :
  (forall M, dR (map (map Q2R) M) = Q2R (dQ M)) ->
  forall row rest neg j,
  expand R0 Rplus Rmult Ropp dR neg j (map Q2R row) (map (map Q2R) rest) =
  Q2R (expand 0%Q Qplus Qmult Qopp dQ neg j row rest).
Proof.
  intros Hd. induction row as [|a row IH]; intros rest neg j; simpl.
  - now rewrite Q2R_zero.
  - rewrite IH, minor_map, Hd, Q2R_plus.
    destruct neg; [rewrite Q2R_opp|]; now rewrite Q2R_mult.
Qed.

Lemma det_Q2R (n : nat) (M : list (list Q)) :
  detR n (map (map Q2R) M) = Q2R (detQ n M).
Proof.
  revert M. induction n as [|n IH]; intros M; simpl.
  - now rewrite Q2R_one.
  - destruct M as [|row rest]; simpl; [now rewrite Q2R_zero|].
    apply expand_Q2R. exact IH.
Qed.

Lemma imap_map {A B C : Type} (f : nat -> A -> B) (g : B -> C) (i : nat)
    (l : list A) :
  map g (imap f i l) = imap (fun j a => g (f j a)) i l.
Proof.
  revert i. induction l as [|a l IH]; intros i; simpl; [reflexivity|].
  now rewrite IH.
Qed.

Lemma imap_of_map {A B C : Type} (f : nat -> B -> C) (g : A -> B) (i : nat)
    (l : list A) :
  imap f i (map g l) = imap (fun j a => f j (g a)) i l.
Proof.
  revert i. induction l as [|a l IH]; intros i; simpl; [reflexivity|].
  now rewrite IH.
Qed.

Lemma imap_ext {A B : Type} (f g : nat -> A -> B) (i : nat) (l : list A) :
  (forall j a, f j a = g j a) -> imap f i l = imap g i l.
Proof.
  intros Hfg. revert i. induction l as [|a l IH]; intros i; simpl;
    [reflexivity|]. now rewrite Hfg, IH.
Qed.

Lemma Forall_imap {A B : Type} (P : B -> Prop) (f : nat -> A -> B) (i : nat)
    (l : list A) :
  (forall j a, P (f j a)) -> Forall P (imap f i l).
Proof.
  intros HP. revert i. induction l as [|a l IH]; intros i; simpl;
    constructor; auto.
Qed.

Lemma char_matrix_Q2R (A : list (list Q)) (q : Q) :
  char_matrix R0 Rminus (real_matrix A) (Q2R q) =
  map (map Q2R) (char_matrix 0%Q Qminus A q).
Proof.
  unfold char_matrix, real_matrix. rewrite imap_map, imap_of_map.
  apply imap_ext. intros i row. rewrite imap_map, imap_of_map.
  apply imap_ext. intros j a. rewrite Q2R_minus.
  destruct (i =? j)%nat; [reflexivity | now rewrite Q2R_zero].
Qed.

(** The real characteristic polynomial at a rational point is the rational
    one. *)
Lemma charpoly_Q2R (A : list (list Q)) (q : Q) :
  charpolyR (real_matrix A) (Q2R q) = Q2R (charpolyQ A q).
Proof.
  unfold charpolyR, charpolyQ, charpoly.
  rewrite char_matrix_Q2R. unfold real_matrix. rewrite length_map.
  apply det_Q2R.
Qed.

(** Functions that agree everywhere are continuous together. *)
Lemma continuity_eq (f g : R -> R) :
  (forall x, f x = g x) -> continuity f -> continuity g.
Proof.
  intros E Hf x. specialize (Hf x).
  unfold continuity_pt, continue_in, limit1_in, limit_in in *.
  intros eps Heps. destruct (Hf eps Heps) as [alp [Halp Hlim]].
  exists alp. split; [exact Halp|]. intros y Hy.
  rewrite <- !E. now apply Hlim.
Qed.

Lemma Forall_drop_nth {A : Type} (P : A -> Prop) (j : nat) (l : list A) :
  Forall P l -> Forall P (drop_nth j l).
Proof.
  intros Hl. revert j. induction Hl as [|a l Ha Hl IH]; intros [|j]; simpl;
    auto.
Qed.

(** The determinant of a matrix of continuous functions is continuous. *)
Lemma expand_continuity (dR : list (list R) -> R) :
  (forall Mf, Forall (Forall continuity) Mf ->
              continuity (fun x => dR (at_point x Mf))) ->
  forall rowf restf neg j,
  Forall continuity rowf -> Forall (Forall continuity) restf ->
  continuity (fun x => expand R0 Rplus Rmult Ropp dR neg j
                         (map (fun f => f x) rowf) (at_point x restf)).
Proof.
  intros Hd. induction rowf as [|f rowf IH]; intros restf neg j Hrow Hrest;
    simpl.
  - apply continuity_const. intros x y. reflexivity.
  - inversion Hrow as [|f' rowf' Hf Hrow']; subst.
    assert (Hminor : continuity
              (fun x => dR (map (drop_nth j) (at_point x restf)))).
    { apply (continuity_eq
               (fun x => dR (at_point x (map (drop_nth j) restf)))).
      - intros x. unfold at_point. now rewrite minor_map.
      - apply Hd. apply Forall_map.
        apply Forall_impl with (2 := Hrest).
        intros l Hl. now apply Forall_drop_nth. }
    apply continuity_plus.
    + destruct neg.
      * apply continuity_opp. apply continuity_mult; assumption.
      * apply continuity_mult; assumption.
    + now apply IH.
Qed.

Lemma det_continuity (n : nat) (Mf : list (list (R -> R))) :
  Forall (Forall continuity) Mf ->
  continuity (fun x => detR n (at_point x Mf)).
Proof.
  revert Mf. induction n as [|n IH]; intros Mf HM; simpl.
  - apply continuity_const. intros x y. reflexivity.
  - destruct Mf as [|rowf restf]; simpl.
    + apply continuity_const. intros x y. reflexivity.
    + inversion HM; subst. apply expand_continuity; assumption.
Qed.

(** The characteristic polynomial is a continuous function. *)
Lemma charpoly_continuity (A : list (list R)) : continuity (charpolyR A).
Proof.
  apply (continuity_eq
           (fun x => detR (length A)
              (at_point x
                 (imap (fun i row =>
                          imap (fun j a x =>
                                  (if (i =? j)%nat then x else R0) - a) 0 row)
                       0 A)))).
  - intros x. unfold charpolyR, charpoly, char_matrix, at_point, detR.
    f_equal. rewrite imap_map. apply imap_ext. intros i row.
    now rewrite imap_map.
  - apply det_continuity. apply Forall_imap. intros i row.
    apply Forall_imap. intros j a. apply continuity_minus.
    + destruct (i =? j)%nat.
      * apply derivable_continuous, derivable_id.
      * apply continuity_const. intros x y. reflexivity.
    + apply continuity_const. intros x y. reflexivity.
Qed.

(** A change of sign of the rational characteristic polynomial between [a]
    and [b] brackets an eigenvalue. *)
Lemma eigenvalue_between (A : list (list Q)) (a b : Q) :
  (a <= b)%Q -> (charpolyQ A a * charpolyQ A b < 0)%Q ->
  exists lam : R, Q2R a <= lam <= Q2R b /\ eigenvalue A lam.
Proof.
  intros Hab Hsign.
  destruct (IVT_cor (charpolyR (real_matrix A)) (Q2R a) (Q2R b))
    as [lam [Hlam Hroot]].
  - apply charpoly_continuity.
  - now apply Qle_Rle.
  - rewrite !charpoly_Q2R, <- Q2R_mult, <- Q2R_zero.
    apply Rlt_le. now apply Qlt_Rlt.
  - exists lam. split; assumption.
Qed.

(** An eigenvalue within [1/100] of the rational [q]. *)
Lemma eigenvalue_near (A : list (list Q)) (q : Q) :
  (charpolyQ A (q - (1 # 100)) * charpolyQ A (q + (1 # 100)) < 0)%Q ->
  exists lam : R,
    Q2R (q - (1 # 100)) <= lam <= Q2R (q + (1 # 100)) /\
    eigenvalue A lam /\ Rabs (Q2R q - lam) <= 1 / 100.
Proof.
  intros Hsign.
  destruct (eigenvalue_between A (q - (1 # 100)) (q + (1 # 100)))
    as [lam [Hlam Hroot]].
  - rewrite <- (Qplus_le_l _ _ (- q)). ring_simplify. discriminate.
  - exact Hsign.
  - exists lam. split; [exact Hlam|]. split; [exact Hroot|].
    rewrite Q2R_minus, Q2R_plus in Hlam.
    assert (E : Q2R (1 # 100) = 1 / 100) by (unfold Q2R; simpl; lra).
    rewrite E in Hlam. apply Rabs_le. lra.
Qed.

(** A monic polynomial of degree four with four distinct roots has no other
    root. *)
Lemma quartic_roots (c3 c2 c1 c0 l1 l2 l3 l4 : R) (p : R -> R) :
  (forall x,
     p x = x * x * x * x + c3 * (x * x * x) + c2 * (x * x) + c1 * x + c0) ->
  l1 < l2 -> l2 < l3 -> l3 < l4 ->
  p l1 = 0 -> p l2 = 0 -> p l3 = 0 -> p l4 = 0 ->
  forall x, p x = 0 -> x = l1 \/ x = l2 \/ x = l3 \/ x = l4.
Proof.
  intros Hp L12 L23 L34 P1 P2 P3 P4.
  rewrite Hp in P1, P2, P3, P4.
  set (a := l1 + c3).
  set (b := l1 * l1 + c3 * l1 + c2).
  set (c := l1 * l1 * l1 + c3 * (l1 * l1) + c2 * l1 + c1).
  assert (D1 : forall x,
             p x = (x - l1) * (x * x * x + a * (x * x) + b * x + c)).
  { intro x. rewrite Hp. unfold a, b, c.
    replace c0 with
      (- (l1 * l1 * l1 * l1 + c3 * (l1 * l1 * l1) + c2 * (l1 * l1) + c1 * l1))
      by lra.
    ring. }
  assert (Q2 : l2 * l2 * l2 + a * (l2 * l2) + b * l2 + c = 0).
  { assert (E : (l2 - l1) * (l2 * l2 * l2 + a * (l2 * l2) + b * l2 + c) = 0)
      by (rewrite <- D1, Hp; exact P2).
    apply Rmult_integral in E. destruct E as [E|E]; [lra|exact E]. }
  set (a' := l2 + a).
  set (b' := l2 * l2 + a * l2 + b).
  assert (D2 : forall x,
             p x = (x - l1) * ((x - l2) * (x * x + a' * x + b'))).
  { intro x. rewrite D1. f_equal. unfold a', b'.
    replace c with (- (l2 * l2 * l2 + a * (l2 * l2) + b * l2)) by lra.
    ring. }
  assert (Q3 : l3 * l3 + a' * l3 + b' = 0).
  { assert (E : (l3 - l1) * ((l3 - l2) * (l3 * l3 + a' * l3 + b')) = 0)
      by (rewrite <- D2, Hp; exact P3).
    apply Rmult_integral in E. destruct E as [E|E]; [lra|].
    apply Rmult_integral in E. destruct E as [E|E]; [lra|exact E]. }
  set (a'' := l3 + a').
  assert (D3 : forall x,
             p x = (x - l1) * ((x - l2) * ((x - l3) * (x + a'')))).
  { intro x. rewrite D2. do 2 f_equal. unfold a''.
    replace b' with (- (l3 * l3 + a' * l3)) by lra.
    ring. }
  intros x Px. rewrite D3 in Px.
  assert (Q4 : l4 + a'' = 0).
  { assert (E : (l4 - l1) * ((l4 - l2) * ((l4 - l3) * (l4 + a''))) = 0)
      by (rewrite <- D3, Hp; exact P4).
    apply Rmult_integral in E. destruct E as [E|E]; [lra|].
    apply Rmult_integral in E. destruct E as [E|E]; [lra|].
    apply Rmult_integral in E. destruct E as [E|E]; [lra|exact E]. }
  apply Rmult_integral in Px. destruct Px as [E|E]; [left; lra|].
  apply Rmult_integral in E. destruct E as [E|E]; [right; left; lra|].
  apply Rmult_integral in E. destruct E as [E|E]; [right; right; left; lra|].
  right; right; right; lra.
Qed.

(** The characteristic polynomial of a chain of four sites with unit
    coupling. *)
Lemma charpoly_chain (e1 e2 e3 e4 x : R) :
  charpolyR [[e1; 1; 0; 0]; [1; e2; 1; 0]; [0; 1; e3; 1]; [0; 0; 1; e4]] x =
  x * x * x * x
  + - (e1 + e2 + e3 + e4) * (x * x * x)
  + (e1 * e2 + e1 * e3 + e1 * e4 + e2 * e3 + e2 * e4 + e3 * e4 - 3) * (x * x)
  + (- (e1 * e2 * e3 + e1 * e2 * e4 + e1 * e3 * e4 + e2 * e3 * e4)
     + (e3 + e4) + (e1 + e4) + (e1 + e2)) * x
  + (e1 * e2 * e3 * e4 - e3 * e4 - e1 * e4 - e1 * e2 + 1).
Proof.
  cbv [charpolyR charpoly char_matrix det expand imap map drop_nth length
       Nat.eqb negb].
  ring.
Qed.

(** A chain of four sites with unit coupling that has four distinct
    eigenvalues has no other eigenvalue. *)
Lemma chain_eigenvalues_complete (e1 e2 e3 e4 : Q) (A : list (list Q))
    (l1 l2 l3 l4 : R) :
  real_matrix A =
    [[Q2R e1; 1; 0; 0]; [1; Q2R e2; 1; 0];
     [0; 1; Q2R e3; 1]; [0; 0; 1; Q2R e4]] ->
  l1 < l2 -> l2 < l3 -> l3 < l4 ->
  eigenvalue A l1 -> eigenvalue A l2 -> eigenvalue A l3 -> eigenvalue A l4 ->
  forall lam, eigenvalue A lam ->
    lam = l1 \/ lam = l2 \/ lam = l3 \/ lam = l4.
Proof.
  unfold eigenvalue. intros ->. intros L12 L23 L34 E1 E2 E3 E4 lam El.
  eapply (quartic_roots _ _ _ _ l1 l2 l3 l4); try eassumption.
  intro x. apply charpoly_chain.
Qed.

End Spectrum.

(* ================================================================= *)
(** * The 4-site scenario in binary64 *)

Section Scenario.

Import PrimFloat Reals Qreals Lra.

(** Evaluating pass by pass gives the loop of [flow]. *)
Lemma for_range_eager_eq {S : Type} (seen : S -> bool) (steps : nat)
    (body : S -> result S) (st : S) :
  Binary64.for_range_eager seen steps body st =
  Binary64.for_range steps body st.
Proof.
  revert st; induction steps as [|k IH]; intro st; simpl; [reflexivity|].
  destruct (body st) as [st'|e]; simpl; [|reflexivity].
  destruct (seen st'); apply IH.
Qed.

(** The run of the notebook: 100000 steps of size [1e-3] on the 4-site
    chain, and the sorted diagonal of the flowed Hamiltonian. *)
Lemma chain_sorted_diagonal :
  Binary64.sorted_diagonal
    (Binary64.flow Binary64.H_chain Binary64.dl_default 100000) =
  Ok [-3.6662631532860157; 1.3348304521142296;
      1.5690518494676162; 3.7143808517041652]%float.
Proof.
  unfold Binary64.flow.
  rewrite <- (for_range_eager_eq Binary64.evaluated).
  vm_compute. reflexivity.
Qed.

(** C8.  On the 4-site chain with on-site energies
    [2.108, 2.935, -3.299, 1.208] and coupling [1], [flow] run in binary64
    for 100000 steps of size [1e-3] returns a Hamiltonian whose sorted
    diagonal is within [1e-2] of the eigenvalues of the original matrix:
    the eigenvalues of the matrix, the real roots of its characteristic
    polynomial, are four numbers [l1 < l2 < l3 < l4] and no other, and the
    [i]-th entry of the sorted diagonal differs from [li] by at most
    [1/100]. *)
Theorem chain_flow_matches_eigenvalues :
  Binary64.sorted_diagonal
    (Binary64.flow Binary64.H_chain Binary64.dl_default 100000) =
  Ok [-3.6662631532860157; 1.3348304521142296;
      1.5690518494676162; 3.7143808517041652]%float /\
  exists (A : list (list Q)) (q1 q2 q3 q4 : Q) (l1 l2 l3 l4 : R),
    Binary64.exact_matrix Binary64.H_chain = Some A /\
    Binary64.exact_list
      [-3.6662631532860157; 1.3348304521142296;
       1.5690518494676162; 3.7143808517041652]%float =
    Some [q1; q2; q3; q4] /\
    (l1 < l2 /\ l2 < l3 /\ l3 < l4)%R /\
    (forall lam : R,
       eigenvalue A lam <-> lam = l1 \/ lam = l2 \/ lam = l3 \/ lam = l4) /\
    (Rabs (Q2R q1 - l1) <= 1 / 100 /\ Rabs (Q2R q2 - l2) <= 1 / 100 /\
     Rabs (Q2R q3 - l3) <= 1 / 100 /\ Rabs (Q2R q4 - l4) <= 1 / 100)%R.
Proof.
  split; [exact chain_sorted_diagonal|].
  let v := eval vm_compute in (Binary64.exact_matrix Binary64.H_chain) in
  match v with Some ?a => pose (A := a) end.
  let v := eval vm_compute in
    (Binary64.exact_list
       [-3.6662631532860157; 1.3348304521142296;
        1.5690518494676162; 3.7143808517041652]%float) in
  match v with
  | Some [?a; ?b; ?c; ?d] =>
      pose (q1 := a); pose (q2 := b); pose (q3 := c); pose (q4 := d)
  end.
  destruct (eigenvalue_near A q1) as [l1 [B1 [E1 N1]]];
    [vm_compute; reflexivity|].
  destruct (eigenvalue_near A q2) as [l2 [B2 [E2 N2]]];
    [vm_compute; reflexivity|].
  destruct (eigenvalue_near A q3) as [l3 [B3 [E3 N3]]];
    [vm_compute; reflexivity|].
  destruct (eigenvalue_near A q4) as [l4 [B4 [E4 N4]]];
    [vm_compute; reflexivity|].
  assert (S12 : (Q2R (q1 + (1 # 100)) < Q2R (q2 - (1 # 100)))%R)
    by (apply Qlt_Rlt; vm_compute; reflexivity).
  assert (S23 : (Q2R (q2 + (1 # 100)) < Q2R (q3 - (1 # 100)))%R)
    by (apply Qlt_Rlt; vm_compute; reflexivity).
  assert (S34 : (Q2R (q3 + (1 # 100)) < Q2R (q4 - (1 # 100)))%R)
    by (apply Qlt_Rlt; vm_compute; reflexivity).
  exists A, q1, q2, q3, q4, l1, l2, l3, l4.
  split; [vm_compute; reflexivity|].
  split; [vm_compute; reflexivity|].
  split; [lra|]. split; [|tauto].
  intro lam. split.
  - assert (One : Q2R (4503599627370496 # 4503599627370496) = 1%R)
      by (unfold Q2R; simpl; lra).
    assert (Zero : Q2R 0 = 0%R) by (unfold Q2R; simpl; lra).
    eapply (chain_eigenvalues_complete _ _ _ _ A l1 l2 l3 l4);
      try assumption; try lra.
    unfold A, real_matrix, map. rewrite One, Zero. reflexivity.
  - intros [->|[->|[->| ->]]]; assumption.
Qed.

End Scenario.
